(** * A shallow embedding of package [clock] (the fake clock of go-multiraft)

    The development follows [src/clock/clock.go].  The Go heap objects the
    clock points to ([*waiter]) live in an explicit store, so that a timer
    handle keeps addressing its waiter after the clock has dropped the
    pointer from [fc.waiters].  Every method body runs under [fc.mu]; it is
    therefore one atomic transition of the state, and a concurrent execution
    is an interleaving of such transitions. *)

From Stdlib Require Import ZArith.
From stdpp Require Import base tactics option list.

Local Open Scope Z_scope.

(** ** Values of package [time] *)

(** [time.Time]: an instant, counted in nanoseconds. *)
Abbreviation Time := Z.

(** [time.Duration] is an [int64] count of nanoseconds. *)
Abbreviation Duration := Z.

Definition min_int64 : Z := - 2 ^ 63.
Definition max_int64 : Z := 2 ^ 63 - 1.

Definition int64 (z : Z) : Prop := min_int64 <= z <= max_int64.

(** Two's complement wrap-around of a 64-bit signed result. *)
Definition wrap64 (z : Z) : Z := (z + 2 ^ 63) mod 2 ^ 64 - 2 ^ 63.

(** [a - b] on [int64] operands, as Go computes it. *)
Definition sub64 (a b : Z) : Z := wrap64 (a - b).

(** [t.Add(d)] returns a new instant and leaves [t] alone. *)
Definition Time_Add (t : Time) (d : Duration) : Time := t + d.

(** ** Buffered channels of [time.Time] *)

Record chan := mkChan { cap : nat; buf : list Time }.

(** [make(chan time.Time, n)] *)
Definition make_chan (n : nat) : chan := mkChan n [].

(** [select { case c <- v: default: }]: the value is queued when the buffer
    has room, and dropped otherwise. *)
Definition try_send (c : chan) (v : Time) : chan :=
  if (length (buf c) <? cap c)%nat then mkChan (cap c) (buf c ++ [v]) else c.

(** A consumer's [<-c] that finds a value takes the oldest one; on an empty
    buffer the consumer is still blocked and the channel is as before. *)
Definition recv (c : chan) : option Time * chan :=
  match buf c with
  | [] => (None, c)
  | v :: rest => (Some v, mkChan (cap c) rest)
  end.

(** ** The data model *)

Record waiter := mkWaiter {
  timeout : Duration;
  notifyCh : chan;
  consumerWaiting : bool
}.

(** A [*waiter]: the address of a waiter object in the store. *)
Abbreviation ptr := nat.

(** [FakeClock], together with the store of the waiter objects its pointers
    (and the timer handles) refer to.  [heap] grows by allocation only; the
    address of a new object is the current size of the store. *)
Record FakeClock := mkFakeClock {
  heap : list waiter;
  waiters : list ptr;
  curTime : Time
}.

(** [fakeClockTimer]; its [fc] field is the one clock of the model. *)
Record fakeClockTimer := mkTimer { ft_waiter : ptr }.

Definition set_timeout (d : Duration) (w : waiter) : waiter :=
  mkWaiter d (notifyCh w) (consumerWaiting w).

Definition set_notifyCh (c : chan) (w : waiter) : waiter :=
  mkWaiter (timeout w) c (consumerWaiting w).

Definition set_consumerWaiting (b : bool) (w : waiter) : waiter :=
  mkWaiter (timeout w) (notifyCh w) b.

(** ** Operations *)

Definition makeWaiter (d : Duration) (consumerWaiting : bool) : waiter :=
  mkWaiter d (make_chan 1) consumerWaiting.

Definition NewFakeClock (curTime : Time) : FakeClock :=
  mkFakeClock [] [] curTime.

Definition Now (fc : FakeClock) : Time := curTime fc.

(** [After] returns the channel of the new waiter; the channel is named by
    the address of the waiter that owns it. *)
Definition After (d : Duration) (fc : FakeClock) : ptr * FakeClock :=
  let p := length (heap fc) in
  (p, mkFakeClock (heap fc ++ [makeWaiter d true]) (waiters fc ++ [p]) (curTime fc)).

Definition NewTimer (d : Duration) (fc : FakeClock) : fakeClockTimer * FakeClock :=
  let p := length (heap fc) in
  (mkTimer p,
   mkFakeClock (heap fc ++ [makeWaiter d false]) (waiters fc ++ [p]) (curTime fc)).

(** The body of the loop of [Advance] for the waiter [w] stored at [p]:
    the new contents of [w] and whether [p] is appended to [activeWaiters]. *)
Definition Advance_waiter (d : Duration) (now : Time) (w : waiter) : waiter * bool :=
  if timeout w <=? d then
    (set_notifyCh (try_send (notifyCh w) now) (set_timeout 0 w), false)
  else
    (set_timeout (sub64 (timeout w) d) w, true).

(** The loop [for _, waiter := range fc.waiters] of [Advance]; [h] is the
    store as the previous iterations left it. *)
Fixpoint Advance_loop (d : Duration) (now : Time) (ws : list ptr)
    (h : list waiter) (activeWaiters : list ptr) : list waiter * list ptr :=
  match ws with
  | [] => (h, activeWaiters)
  | p :: ws' =>
      match h !! p with
      | Some w =>
          let '(w', keep) := Advance_waiter d now w in
          Advance_loop d now ws' (<[p := w']> h)
            (if keep then activeWaiters ++ [p] else activeWaiters)
      | None => Advance_loop d now ws' h activeWaiters
      end
  end.

(** [fc.curTime.Add(d)] is evaluated and its result dropped. *)
Definition Advance (d : Duration) (fc : FakeClock) : FakeClock :=
  let _ := Time_Add (curTime fc) d in
  let '(h, activeWaiters) := Advance_loop d (curTime fc) (waiters fc) (heap fc) [] in
  mkFakeClock h activeWaiters (curTime fc).

(** [C] returns the channel, again named by the waiter's address. *)
Definition C (ft : fakeClockTimer) (fc : FakeClock) : ptr * FakeClock :=
  (ft_waiter ft,
   mkFakeClock (alter (set_consumerWaiting true) (ft_waiter ft) (heap fc))
     (waiters fc) (curTime fc)).

Definition Reset (ft : fakeClockTimer) (d : Duration) (fc : FakeClock) : FakeClock :=
  mkFakeClock (alter (set_timeout d) (ft_waiter ft) (heap fc)) (waiters fc) (curTime fc).

Definition Stop (ft : fakeClockTimer) (fc : FakeClock) : bool * FakeClock :=
  let alreadyFired :=
    match heap fc !! ft_waiter ft with
    | Some w => timeout w =? 0
    | None => false
    end in
  let activeWaiters := filter (λ w, w ≠ ft_waiter ft) (waiters fc) in
  (alreadyFired, mkFakeClock (heap fc) activeWaiters (curTime fc)).

(** A consumer receiving from the channel of the waiter at [p]. *)
Definition Recv (p : ptr) (fc : FakeClock) : option Time * FakeClock :=
  match heap fc !! p with
  | Some w =>
      let '(v, c) := recv (notifyCh w) in
      (v, mkFakeClock (<[p := set_notifyCh c w]> (heap fc)) (waiters fc) (curTime fc))
  | None => (None, fc)
  end.

(** One pass of the inner loop of [WaitAdvance], from a running count
    [waitingConsumers]: [true] when the pass reaches the [return] branch.
    The count is an [int] bounded by the length of the list, so it does not
    wrap around. *)
Fixpoint WaitAdvance_scan (numWaiters : Z) (h : list waiter) (ws : list ptr)
    (waitingConsumers : Z) : bool :=
  match ws with
  | [] => false
  | p :: ws' =>
      let waitingConsumers' :=
        match h !! p with
        | Some w => if consumerWaiting w then waitingConsumers + 1 else waitingConsumers
        | None => waitingConsumers
        end in
      if waitingConsumers' =? numWaiters then true
      else WaitAdvance_scan numWaiters h ws' waitingConsumers'
  end.

Definition WaitAdvance_pass (numWaiters : Z) (fc : FakeClock) : bool :=
  WaitAdvance_scan numWaiters (heap fc) (waiters fc) 0.

(** ** Interleavings *)

(** The atomic transitions other goroutines can take on the clock. *)
Inductive action :=
| ActAfter (d : Duration)
| ActNewTimer (d : Duration)
| ActAdvance (d : Duration)
| ActC (ft : fakeClockTimer)
| ActReset (ft : fakeClockTimer) (d : Duration)
| ActStop (ft : fakeClockTimer)
| ActRecv (p : ptr).

Definition step (fc : FakeClock) (a : action) : FakeClock :=
  match a with
  | ActAfter d => (After d fc).2
  | ActNewTimer d => (NewTimer d fc).2
  | ActAdvance d => Advance d fc
  | ActC ft => (C ft fc).2
  | ActReset ft d => Reset ft d fc
  | ActStop ft => (Stop ft fc).2
  | ActRecv p => (Recv p fc).2
  end.

Definition run (acts : list action) (fc : FakeClock) : FakeClock :=
  foldl step fc acts.

(** The durations an action carries are [int64] values. *)
Definition typed (a : action) : Prop :=
  match a with
  | ActAfter d | ActNewTimer d | ActAdvance d | ActReset _ d => int64 d
  | ActC _ | ActStop _ | ActRecv _ => True
  end.

(** The states a clock created by [NewFakeClock] can be in. *)
Definition reachable (fc : FakeClock) : Prop :=
  ∃ t0 acts, Forall typed acts ∧ fc = run acts (NewFakeClock t0).

(** What an observer sees of one call of [WaitAdvance]. *)
Inductive event :=
| EvScan (fc : FakeClock) (hit : bool)
| EvSleep
| EvAdvance (d : Duration).

Inductive status := Returned | Polling.

(** [WaitAdvance numWaiters d] against a schedule: the k-th element of
    [sched] lists what the other goroutines do after the k-th pass has
    released the lock (before [fc.Advance(d)] takes it again when the pass
    hit the threshold, during the sleep otherwise).  The call is still
    [Polling] when the schedule ends before a pass has hit. *)
Fixpoint WaitAdvance (numWaiters : Z) (d : Duration) (sched : list (list action))
    (fc : FakeClock) : status * FakeClock * list event :=
  match sched with
  | [] => (Polling, fc, [])
  | others :: rest =>
      if WaitAdvance_pass numWaiters fc then
        (Returned, Advance d (run others fc), [EvScan fc true; EvAdvance d])
      else
        let '(s, fc', tr) := WaitAdvance numWaiters d rest (run others fc) in
        (s, fc', EvScan fc false :: EvSleep :: tr)
  end.

(** ** Vocabulary of the statements *)

(** The durations this call of [WaitAdvance] passed to [Advance], in order. *)
Fixpoint advances (tr : list event) : list Duration :=
  match tr with
  | [] => []
  | EvAdvance d :: tr' => d :: advances tr'
  | _ :: tr' => advances tr'
  end.

(** The events of the passes that missed, one per observed state. *)
Definition misses (seen : list FakeClock) : list event :=
  seen ≫= λ fc, [EvScan fc false; EvSleep].

(** Whether the waiter at [p] has [consumerWaiting] set. *)
Definition is_watched (h : list waiter) (p : ptr) : bool :=
  match h !! p with
  | Some w => consumerWaiting w
  | None => false
  end.

(** Number of the waiters listed in [ws] that have [consumerWaiting] set. *)
Fixpoint watched (h : list waiter) (ws : list ptr) : Z :=
  match ws with
  | [] => 0
  | p :: ws' => (if is_watched h p then 1 else 0) + watched h ws'
  end.

(** [Advance d] keeps the waiter at [p]: its remaining duration exceeds [d]. *)
Definition armed (d : Duration) (h : list waiter) (p : ptr) : bool :=
  match h !! p with
  | Some w => negb (timeout w <=? d)
  | None => false
  end.

(** The contents of the notification channel of the waiter at [p]. *)
Definition slot (fc : FakeClock) (p : ptr) : list Time :=
  match heap fc !! p with
  | Some w => buf (notifyCh w)
  | None => []
  end.

(** The remaining duration of the waiter at [p]. *)
Definition remaining (fc : FakeClock) (p : ptr) : option Duration :=
  timeout <$> heap fc !! p.

(** Actions that register a waiter. *)
Definition registers (a : action) : bool :=
  match a with
  | ActAfter _ | ActNewTimer _ => true
  | _ => false
  end.

(** Actions that leave the waiter at [p] armed as it is: anything but an
    [Advance], a [Reset] of [p] or a [Stop] of [p]. *)
Definition leaves_armed (p : ptr) (a : action) : bool :=
  match a with
  | ActAdvance _ => false
  | ActReset ft _ | ActStop ft => negb (ft_waiter ft =? p)%nat
  | _ => true
  end.

(** The invariant of the store and the waiter list. *)
Record wf (fc : FakeClock) : Prop := mkWf {
  wf_nodup : NoDup (waiters fc);
  wf_valid : ∀ p, p ∈ waiters fc → (p < length (heap fc))%nat;
  wf_cap : ∀ p w, heap fc !! p = Some w → cap (notifyCh w) = 1%nat;
  wf_buf : ∀ p w, heap fc !! p = Some w → (length (buf (notifyCh w)) ≤ 1)%nat;
  wf_idle : ∀ p w, p ∈ waiters fc → heap fc !! p = Some w → buf (notifyCh w) = []
}.

(** Every remaining duration in the store is an [int64] value. *)
Definition timeouts_int64 (fc : FakeClock) : Prop :=
  ∀ p w, heap fc !! p = Some w → int64 (timeout w).

(** ** Tests of the repository, run on the model *)

Definition second : Duration := 1000000000.
Definition minute : Duration := 60 * second.

Example TestAdvanceTriggersTimeout :
  let '(c1, fc1) := After (10 * minute) (NewFakeClock 0) in
  let '(c2, fc2) := After (11 * minute) fc1 in
  let fc3 := Advance (11 * minute) fc2 in
  (Recv c1 fc3).1 = Some 0 ∧ (Recv c2 fc3).1 = Some 0 ∧ length (waiters fc3) = 0%nat.
Proof. vm_compute. auto. Qed.

Example TestTimer :
  let '(timer, fc1) := NewTimer (10 * minute) (NewFakeClock 0) in
  let fc2 := Advance (10 * minute) fc1 in
  let '(fired, fc3) := Stop timer fc2 in
  let '(ch, fc4) := C timer fc3 in
  let '(v, fc5) := Recv ch fc4 in
  let fc6 := Reset timer (5 * minute) fc5 in
  fired = true ∧ v = Some 0 ∧ (Stop timer fc6).1 = false.
Proof. vm_compute. auto. Qed.

Example TestWaitAdvance :
  let '(timeoutCh, fc1) := After (10 * minute) (NewFakeClock 0) in
  let '(timer, fc2) := NewTimer (10 * minute) fc1 in
  let '(s, fc3, tr) := WaitAdvance 2 (10 * minute) [[ActC timer]; []] fc2 in
  s = Returned ∧ (Recv timeoutCh fc3).1 = Some 0 ∧ (Recv (ft_waiter timer) fc3).1 = Some 0.
Proof. vm_compute. auto. Qed.

(** ** Arithmetic of [int64] *)

Lemma wrap64_id z : int64 z → wrap64 z = z.
Proof.
  unfold int64, min_int64, max_int64, wrap64. intros Hz.
  rewrite Z.mod_small; lia.
Qed.

Lemma sub64_exact a b : int64 (a - b) → sub64 a b = a - b.
Proof. apply wrap64_id. Qed.

Lemma sub64_nonneg a b : int64 a → 0 <= b < a → sub64 a b = a - b.
Proof.
  intros Ha Hb. apply sub64_exact.
  unfold int64, min_int64, max_int64 in *. lia.
Qed.

Lemma sub64_zero a : int64 a → sub64 a 0 = a.
Proof. intros Ha. unfold sub64. rewrite Z.sub_0_r. by apply wrap64_id. Qed.

(** ** Channels *)

Lemma try_send_cap c v : cap (try_send c v) = cap c.
Proof. unfold try_send. by destruct (_ <? _)%nat. Qed.

Lemma try_send_empty c v :
  cap c = 1%nat → buf c = [] → buf (try_send c v) = [v].
Proof. unfold try_send. intros -> ->. done. Qed.

Lemma try_send_full c v :
  (cap c ≤ length (buf c))%nat → try_send c v = c.
Proof.
  unfold try_send. intros Hfull.
  destruct (Nat.ltb_spec (length (buf c)) (cap c)); [lia | done].
Qed.

Lemma try_send_length c v :
  (length (buf c) ≤ cap c)%nat → (length (buf (try_send c v)) ≤ cap c)%nat.
Proof.
  unfold try_send. intros Hle.
  destruct (Nat.ltb_spec (length (buf c)) (cap c)); simpl; [|done].
  rewrite length_app. simpl. lia.
Qed.

Lemma try_send_one c v :
  cap c = 1%nat → (length (buf c) ≤ 1)%nat → length (buf (try_send c v)) = 1%nat.
Proof.
  unfold try_send. intros Hcap Hle. rewrite Hcap.
  destruct (Nat.ltb_spec (length (buf c)) 1); simpl; [|lia].
  rewrite length_app. simpl. lia.
Qed.

Lemma recv_cap c : cap (recv c).2 = cap c.
Proof. unfold recv. by destruct (buf c). Qed.

Lemma recv_suffix c : buf (recv c).2 `suffix_of` buf c.
Proof.
  unfold recv. destruct (buf c) as [|v rest] eqn:Hbuf; simpl.
  - by rewrite Hbuf.
  - by apply suffix_cons_r.
Qed.

(** ** The loop of [Advance] *)

Section Advance_loop.
Variables (d : Duration) (now : Time).

Lemma Advance_loop_length ws h acc :
  length (Advance_loop d now ws h acc).1 = length h.
Proof.
  revert h acc. induction ws as [|p ws IH]; intros h acc; simpl; [done|].
  destruct (h !! p) as [w|]; [|apply IH].
  destruct (Advance_waiter d now w) as [w' keep].
  rewrite IH. apply length_insert.
Qed.

(** A waiter the loop does not visit is not written. *)
Lemma Advance_loop_other ws h acc q :
  q ∉ ws → (Advance_loop d now ws h acc).1 !! q = h !! q.
Proof.
  revert h acc. induction ws as [|p ws IH]; intros h acc Hq; simpl; [done|].
  apply not_elem_of_cons in Hq as [Hne Hq].
  destruct (h !! p) as [w|]; [|by apply IH].
  destruct (Advance_waiter d now w) as [w' keep].
  rewrite IH by done. by apply list_lookup_insert_ne.
Qed.

(** A waiter visited once is written once. *)
Lemma Advance_loop_visited ws h acc q w :
  NoDup ws → q ∈ ws → h !! q = Some w →
  (Advance_loop d now ws h acc).1 !! q = Some (Advance_waiter d now w).1.
Proof.
  revert h acc. induction ws as [|p ws IH]; intros h acc Hnd Hq Hw; simpl.
  { by apply elem_of_nil in Hq. }
  apply NoDup_cons in Hnd as [Hp Hnd].
  destruct (decide (q = p)) as [->|Hne].
  - rewrite Hw. destruct (Advance_waiter d now w) as [w' keep]; simpl.
    rewrite Advance_loop_other by done.
    apply list_lookup_insert_eq. by eapply lookup_lt_Some.
  - apply elem_of_cons in Hq as [?|Hq]; [done|].
    destruct (h !! p) as [wp|] eqn:Hp'; [|by apply IH].
    destruct (Advance_waiter d now wp) as [w' keep].
    apply IH; [done..|]. by rewrite list_lookup_insert_ne.
Qed.

Lemma armed_insert_ne h p q w : p ≠ q → armed d (<[p := w]> h) q = armed d h q.
Proof. intros Hne. unfold armed. by rewrite list_lookup_insert_ne. Qed.

(** The waiters the loop keeps, in the order of the list. *)
Lemma Advance_loop_active ws h acc :
  NoDup ws →
  (Advance_loop d now ws h acc).2 = acc ++ filter (λ p, armed d h p) ws.
Proof.
  revert h acc. induction ws as [|p ws IH]; intros h acc Hnd; simpl.
  { by rewrite app_nil_r. }
  apply NoDup_cons in Hnd as [Hp Hnd].
  assert (Hsame : ∀ w', filter (λ q, armed d (<[p := w']> h) q) ws
                        = filter (λ q, armed d h q) ws).
  { intros w'. clear IH Hnd. induction ws as [|q ws IHws]; [done|].
    apply not_elem_of_cons in Hp as [Hne Hp].
    rewrite !filter_cons, armed_insert_ne, IHws by done. done. }
  rewrite filter_cons.
  destruct (h !! p) as [w|] eqn:Hw.
  - assert (Harmed : armed d h p = negb (timeout w <=? d)).
    { unfold armed. by rewrite Hw. }
    unfold Advance_waiter. destruct (timeout w <=? d); simpl in *.
    + rewrite IH, Hsame by done. rewrite decide_False; [done|].
      rewrite Harmed. by intros [].
    + rewrite IH, Hsame by done. rewrite decide_True by (rewrite Harmed; exact I).
      by rewrite <- app_assoc.
  - assert (Harmed : armed d h p = false).
    { unfold armed. by rewrite Hw. }
    rewrite IH by done. rewrite decide_False; [done|].
    rewrite Harmed. by intros [].
Qed.
End Advance_loop.

(** ** [Advance] on the whole clock *)

Lemma Advance_unfold d fc :
  Advance d fc =
  mkFakeClock (Advance_loop d (curTime fc) (waiters fc) (heap fc) []).1
              (Advance_loop d (curTime fc) (waiters fc) (heap fc) []).2
              (curTime fc).
Proof. unfold Advance. by destruct (Advance_loop _ _ _ _ _). Qed.

Lemma Advance_curTime d fc : curTime (Advance d fc) = curTime fc.
Proof. by rewrite Advance_unfold. Qed.

Lemma Advance_heap_length d fc : length (heap (Advance d fc)) = length (heap fc).
Proof. rewrite Advance_unfold. apply Advance_loop_length. Qed.

Lemma Advance_heap_other d fc q :
  q ∉ waiters fc → heap (Advance d fc) !! q = heap fc !! q.
Proof. rewrite Advance_unfold. apply Advance_loop_other. Qed.

Lemma Advance_heap_visited d fc q w :
  NoDup (waiters fc) → q ∈ waiters fc → heap fc !! q = Some w →
  heap (Advance d fc) !! q = Some (Advance_waiter d (curTime fc) w).1.
Proof. rewrite Advance_unfold. apply Advance_loop_visited. Qed.

Lemma Advance_waiters d fc :
  NoDup (waiters fc) →
  waiters (Advance d fc) = filter (λ p, armed d (heap fc) p) (waiters fc).
Proof. rewrite Advance_unfold. intros Hnd. simpl. by rewrite Advance_loop_active. Qed.

(** Every waiter after [Advance] is a waiter from before, written or not. *)
Lemma Advance_heap_inv d fc q w' :
  NoDup (waiters fc) → heap (Advance d fc) !! q = Some w' →
  ∃ w, heap fc !! q = Some w ∧
       (((q ∉ waiters fc) ∧ w' = w) ∨
        ((q ∈ waiters fc) ∧ w' = (Advance_waiter d (curTime fc) w).1)).
Proof.
  intros Hnd Hq.
  destruct (decide (q ∈ waiters fc)) as [Hin|Hout].
  - assert (is_Some (heap fc !! q)) as [w Hw].
    { apply lookup_lt_is_Some. rewrite <- (Advance_heap_length d).
      by eapply lookup_lt_Some. }
    exists w. split; [done|]. right. split; [done|].
    rewrite (Advance_heap_visited d fc q w) in Hq by done. congruence.
  - rewrite Advance_heap_other in Hq by done. eauto.
Qed.

Lemma armed_true d h p :
  armed d h p ↔ ∃ w, h !! p = Some w ∧ d < timeout w.
Proof.
  unfold armed. destruct (h !! p) as [w|]; simpl.
  - destruct (Z.leb_spec (timeout w) d); simpl; split.
    + by intros [].
    + intros (w' & [= <-] & ?). lia.
    + intros _. eauto.
    + done.
  - split; [intros [] | intros (? & ? & ?); done].
Qed.

(** ** The invariant *)

Lemma wf_NewFakeClock t0 : wf (NewFakeClock t0).
Proof.
  split; simpl.
  - constructor.
  - intros p Hp. by apply elem_of_nil in Hp.
  - intros p w Hw. by rewrite lookup_nil in Hw.
  - intros p w Hw. by rewrite lookup_nil in Hw.
  - intros p w Hp. by apply elem_of_nil in Hp.
Qed.

(** Registration, common to [After] and [NewTimer]. *)
Lemma wf_register d b fc :
  wf fc →
  wf (mkFakeClock (heap fc ++ [makeWaiter d b])
                  (waiters fc ++ [length (heap fc)]) (curTime fc)).
Proof.
  intros [Hnd Hval Hcap Hbuf Hidle]. split; simpl.
  - apply NoDup_app. split; [done|]. split; [|apply NoDup_singleton].
    intros p Hp Hp'. apply list_elem_of_singleton in Hp'. apply Hval in Hp. lia.
  - intros p Hp. rewrite length_app. simpl.
    apply elem_of_app in Hp as [Hp|Hp].
    + apply Hval in Hp. lia.
    + apply list_elem_of_singleton in Hp. lia.
  - intros p w Hw. apply lookup_app_Some in Hw as [Hw|[_ Hw]]; [by eapply Hcap|].
    apply list_lookup_singleton_Some in Hw as [_ <-]. done.
  - intros p w Hw. apply lookup_app_Some in Hw as [Hw|[_ Hw]]; [by eapply Hbuf|].
    apply list_lookup_singleton_Some in Hw as [_ <-]. simpl. lia.
  - intros p w Hp Hw. apply lookup_app_Some in Hw as [Hw|[_ Hw]].
    + apply elem_of_app in Hp as [Hp|Hp]; [by eapply Hidle|].
      apply list_elem_of_singleton in Hp. apply lookup_lt_Some in Hw. lia.
    + apply list_lookup_singleton_Some in Hw as [_ <-]. done.
Qed.

Lemma wf_After d fc : wf fc → wf (After d fc).2.
Proof. apply wf_register. Qed.

Lemma wf_NewTimer d fc : wf fc → wf (NewTimer d fc).2.
Proof. apply wf_register. Qed.

Lemma wf_Advance d fc : wf fc → wf (Advance d fc).
Proof.
  intros [Hnd Hval Hcap Hbuf Hidle].
  assert (Hch : ∀ q w', heap (Advance d fc) !! q = Some w' →
            ∃ w, heap fc !! q = Some w ∧
                 (notifyCh w' = notifyCh w ∨
                  ((q ∉ waiters (Advance d fc)) ∧
                   notifyCh w' = try_send (notifyCh w) (curTime fc)))).
  { intros q w' Hq.
    apply Advance_heap_inv in Hq as (w & Hw & [[_ ->]|[Hin ->]]); [eauto| |done].
    exists w. split; [done|]. unfold Advance_waiter.
    destruct (Z.leb_spec (timeout w) d); simpl; [|by left].
    right. split; [|done]. rewrite Advance_waiters by done.
    rewrite list_elem_of_filter, armed_true.
    intros [(w0 & Hw0 & Hlt) _]. simplify_eq. lia. }
  split.
  - rewrite Advance_waiters by done. by apply NoDup_filter.
  - intros p Hp. rewrite Advance_heap_length.
    rewrite Advance_waiters in Hp by done.
    apply list_elem_of_filter in Hp as [_ Hp]. by apply Hval.
  - intros p w' Hp. apply Hch in Hp as (w & Hw & [->|[_ ->]]).
    + by eapply Hcap.
    + rewrite try_send_cap. by eapply Hcap.
  - intros p w' Hp. apply Hch in Hp as (w & Hw & [->|[_ ->]]).
    + by eapply Hbuf.
    + rewrite <- (Hcap p w Hw). apply try_send_length.
      rewrite (Hcap p w Hw). by eapply Hbuf.
  - intros p w' Hin Hp. apply Hch in Hp as (w & Hw & [->|[Hout _]]); [|done].
    eapply Hidle; [|done]. rewrite Advance_waiters in Hin by done.
    by apply list_elem_of_filter in Hin as [_ ?].
Qed.

(** A store update that keeps every channel, or shortens its buffer. *)
Lemma wf_store fc h' :
  wf fc →
  length h' = length (heap fc) →
  (∀ p w', h' !! p = Some w' →
     ∃ w, heap fc !! p = Some w ∧ cap (notifyCh w') = cap (notifyCh w) ∧
          buf (notifyCh w') `suffix_of` buf (notifyCh w)) →
  wf (mkFakeClock h' (waiters fc) (curTime fc)).
Proof.
  intros [Hnd Hval Hcap Hbuf Hidle] Hlen Hch. split; simpl.
  - done.
  - intros p Hp. rewrite Hlen. by apply Hval.
  - intros p w' Hp. apply Hch in Hp as (w & Hw & -> & _). by eapply Hcap.
  - intros p w' Hp. apply Hch in Hp as (w & Hw & _ & Hsuf).
    apply suffix_length in Hsuf. specialize (Hbuf p w Hw). lia.
  - intros p w' Hin Hp. apply Hch in Hp as (w & Hw & _ & Hsuf).
    rewrite (Hidle p w Hin Hw) in Hsuf. by apply suffix_nil_inv in Hsuf.
Qed.

Lemma alter_lookup_inv (f : waiter → waiter) (h : list waiter) i q w' :
  alter f i h !! q = Some w' →
  ∃ w, h !! q = Some w ∧ (w' = w ∨ (q = i ∧ w' = f w)).
Proof.
  rewrite list_lookup_alter. case_decide as Heq.
  - subst q. destruct (h !! i) as [w|]; simpl; [|done].
    intros [= <-]. eauto.
  - eauto.
Qed.

Lemma wf_C ft fc : wf fc → wf (C ft fc).2.
Proof.
  intros Hwf. apply wf_store; [done|apply length_alter|].
  intros p w' Hp. apply alter_lookup_inv in Hp as (w & Hw & [->|[_ ->]]); eauto.
Qed.

Lemma wf_Reset ft d fc : wf fc → wf (Reset ft d fc).
Proof.
  intros Hwf. apply wf_store; [done|apply length_alter|].
  intros p w' Hp. apply alter_lookup_inv in Hp as (w & Hw & [->|[_ ->]]); eauto.
Qed.

Lemma wf_Stop ft fc : wf fc → wf (Stop ft fc).2.
Proof.
  intros [Hnd Hval Hcap Hbuf Hidle]. split; simpl.
  - by apply NoDup_filter.
  - intros p Hp. apply list_elem_of_filter in Hp as [_ Hp]. by apply Hval.
  - done.
  - done.
  - intros p w Hp. apply list_elem_of_filter in Hp as [_ Hp]. by apply Hidle.
Qed.

Lemma wf_Recv p fc : wf fc → wf (Recv p fc).2.
Proof.
  intros Hwf. unfold Recv.
  destruct (heap fc !! p) as [w|] eqn:Hw; [|done].
  pose proof (recv_cap (notifyCh w)) as Hc.
  pose proof (recv_suffix (notifyCh w)) as Hs.
  destruct (recv (notifyCh w)) as [v c]. simpl in *.
  apply wf_store; [done|apply length_insert|].
  intros q w' Hq. apply list_lookup_insert_Some in Hq as [(-> & <- & _)|[_ Hq]].
  - exists w. eauto.
  - exists w'. eauto.
Qed.

Lemma wf_step fc a : wf fc → wf (step fc a).
Proof.
  destruct a; unfold step; intros Hwf.
  - by apply wf_After.
  - by apply wf_NewTimer.
  - by apply wf_Advance.
  - by apply wf_C.
  - by apply wf_Reset.
  - by apply wf_Stop.
  - by apply wf_Recv.
Qed.

Lemma run_app acts1 acts2 fc : run (acts1 ++ acts2) fc = run acts2 (run acts1 fc).
Proof. apply foldl_app. Qed.

Lemma wf_run acts fc : wf fc → wf (run acts fc).
Proof.
  revert fc. induction acts as [|a acts IH]; intros fc Hwf; simpl; [done|].
  apply IH. by apply wf_step.
Qed.

Lemma reachable_wf fc : reachable fc → wf fc.
Proof. intros (t0 & acts & _ & ->). apply wf_run, wf_NewFakeClock. Qed.

Lemma reachable_run acts fc :
  Forall typed acts → reachable fc → reachable (run acts fc).
Proof.
  intros Hty (t0 & acts0 & Hty0 & ->). exists t0, (acts0 ++ acts).
  split; [by apply Forall_app|]. by rewrite run_app.
Qed.

Lemma reachable_NewFakeClock t0 : reachable (NewFakeClock t0).
Proof. exists t0, []. by split. Qed.

(** ** Remaining durations are [int64] values *)

Lemma wrap64_range z : int64 (wrap64 z).
Proof.
  unfold int64, min_int64, max_int64, wrap64.
  pose proof (Z.mod_pos_bound (z + 2 ^ 63) (2 ^ 64)). lia.
Qed.

Lemma int64_0 : int64 0.
Proof. unfold int64, min_int64, max_int64. lia. Qed.

Lemma step_timeouts_int64 fc a :
  typed a → timeouts_int64 fc → timeouts_int64 (step fc a).
Proof.
  unfold timeouts_int64. intros Hty Hfc.
  assert (Hreg : ∀ d b p w, int64 d →
            (heap fc ++ [makeWaiter d b]) !! p = Some w → int64 (timeout w)).
  { intros d b p w Hd Hw. apply lookup_app_Some in Hw as [Hw|[_ Hw]]; [eauto|].
    apply list_lookup_singleton_Some in Hw as [_ <-]. done. }
  destruct a as [d|d|d|ft|ft d|ft|q]; simpl in *; intros p w' Hp.
  - by eapply Hreg.
  - by eapply Hreg.
  - rewrite Advance_unfold in Hp. simpl in Hp. revert Hp.
    generalize (@nil nat). generalize (curTime fc). revert Hfc.
    generalize (heap fc). induction (waiters fc) as [|q ws IH];
      intros h Hh now acc Hp; simpl in Hp; [eauto|].
    destruct (h !! q) as [w|] eqn:Hw; [|eauto].
    destruct (Advance_waiter d now w) as [w1 keep] eqn:Hadv.
    eapply IH; [|exact Hp]. intros p' w2 Hp'.
    apply list_lookup_insert_Some in Hp' as [(_ & <- & _)|[_ Hp']]; [|eauto].
    unfold Advance_waiter in Hadv.
    destruct (timeout w <=? d); simplify_eq/=;
      [apply int64_0|apply wrap64_range].
  - apply alter_lookup_inv in Hp as (w & Hw & [->|[_ ->]]); simpl; eauto.
  - apply alter_lookup_inv in Hp as (w & Hw & [->|[_ ->]]); simpl; eauto.
  - eauto.
  - unfold Recv in Hp. destruct (heap fc !! q) as [w|] eqn:Hw; [|eauto].
    destruct (recv (notifyCh w)) as [v c]. simpl in Hp.
    apply list_lookup_insert_Some in Hp as [(_ & <- & _)|[_ Hp]]; simpl; eauto.
Qed.

Lemma reachable_timeouts_int64 fc : reachable fc → timeouts_int64 fc.
Proof.
  intros (t0 & acts & Hty & ->).
  assert (Hinit : timeouts_int64 (NewFakeClock t0)).
  { intros p w Hw. simpl in Hw. by rewrite lookup_nil in Hw. }
  revert Hinit. generalize (NewFakeClock t0).
  induction Hty as [|a acts Ha Hty IH]; intros fc Hfc; simpl; [done|].
  apply IH. by apply step_timeouts_int64.
Qed.

(** ** The current time *)

Lemma step_curTime fc a : curTime (step fc a) = curTime fc.
Proof.
  destruct a; simpl; try done.
  - apply Advance_curTime.
  - unfold Recv. destruct (heap fc !! p) as [w|]; [|done].
    by destruct (recv (notifyCh w)).
Qed.

Lemma run_curTime acts fc : curTime (run acts fc) = curTime fc.
Proof.
  revert fc. induction acts as [|a acts IH]; intros fc; simpl; [done|].
  by rewrite IH, step_curTime.
Qed.

Lemma WaitAdvance_curTime n d sched fc :
  curTime (WaitAdvance n d sched fc).1.2 = curTime fc.
Proof.
  revert fc. induction sched as [|others rest IH]; intros fc; simpl; [done|].
  destruct (WaitAdvance_pass n fc); simpl.
  - by rewrite Advance_curTime, run_curTime.
  - specialize (IH (run others fc)).
    destruct (WaitAdvance n d rest (run others fc)) as [[s fc'] tr]. simpl in *.
    by rewrite IH, run_curTime.
Qed.

(** ** [Now] and [Advance] *)

(** C1 (defect of the code): [TestGetCurrentTime] advances a new clock by 90
    seconds and expects the current time to be updated.  On the code, [Now]
    after [Advance (90 * second)] is still the instant the clock was created
    with, and so differs from that instant plus 90 seconds: [Advance]
    computes [fc.curTime.Add(d)] and drops the result. *)
Theorem C1_Advance_leaves_Now_behind :
  let clk := NewFakeClock 0 in
  let advance := 90 * second in
  Now (Advance advance clk) = Now clk ∧
  Now (Advance advance clk) ≠ Time_Add (Now clk) advance.
Proof. vm_compute. split; [done|]. discriminate. Qed.

(** C9: whatever sequence of [After], [NewTimer], [Advance], [C], [Reset],
    [Stop] and receive transitions a clock created by [NewFakeClock t0] goes
    through, and whatever call of [WaitAdvance] runs on top of it against any
    schedule, [Now] returns [t0]; in particular [Advance d] leaves [curTime]
    as it was, the result of [Time_Add] being dropped. *)
Theorem C9_Now_is_the_instant_of_construction
    (t0 : Time) (acts : list action) (n : Z) (d : Duration)
    (sched : list (list action)) :
  Now (NewFakeClock t0) = t0 ∧
  Now (run acts (NewFakeClock t0)) = t0 ∧
  Now (Advance d (run acts (NewFakeClock t0))) = t0 ∧
  Now (WaitAdvance n d sched (run acts (NewFakeClock t0))).1.2 = t0.
Proof.
  unfold Now. rewrite WaitAdvance_curTime, Advance_curTime, run_curTime. done.
Qed.

(** ** Timer waiters and [Advance] *)

(** C2, as the spec states it, fails: a timer created for ten minutes is in
    the waiter list, and the [Advance] of ten minutes that fires it (its
    channel then holds the notification) takes it out of the list. *)
Lemma C2_fired_timer_is_removed :
  let '(timer, fc1) := NewTimer (10 * minute) (NewFakeClock 0) in
  let fc2 := Advance (10 * minute) fc1 in
  ft_waiter timer ∈ waiters fc1 ∧
  slot fc2 (ft_waiter timer) = [0] ∧
  ft_waiter timer ∉ waiters fc2.
Proof.
  vm_compute. split; [apply list_elem_of_here|]. split; [done|].
  apply not_elem_of_nil.
Qed.

(** C3 (defect of the code): a timer is created for ten minutes, the clock
    is advanced by ten minutes, [Stop] reports [true], the channel is
    drained, and the timer is [Reset] to five minutes.  [Reset] stores the
    new duration in a waiter that [Advance] (and then [Stop]) has already
    taken out of the list and that nothing puts back: the next [Advance] of
    five minutes sends nothing and does not even count the duration down. *)
Theorem C3_Reset_after_fire_and_Stop_never_fires :
  let '(timer, fc1) := NewTimer (10 * minute) (NewFakeClock 0) in
  let fc2 := Advance (10 * minute) fc1 in
  let '(fired, fc3) := Stop timer fc2 in
  let '(ch, fc4) := C timer fc3 in
  let '(v, fc5) := Recv ch fc4 in
  let fc6 := Reset timer (5 * minute) fc5 in
  let fc7 := Advance (5 * minute) fc6 in
  fired = true ∧ v = Some 0 ∧
  waiters fc6 = [] ∧ remaining fc6 ch = Some (5 * minute) ∧
  slot fc7 ch = [] ∧ remaining fc7 ch = Some (5 * minute).
Proof. vm_compute. auto 10. Qed.

(** The same, from any state: once [Stop] has run, [Reset] followed by
    [Advance] leaves the stopped waiter as [Reset] left it. *)
Lemma Reset_after_Stop_is_not_seen_by_Advance ft d d' fc :
  let fc' := Reset ft d (Stop ft fc).2 in
  heap (Advance d' fc') !! ft_waiter ft = heap fc' !! ft_waiter ft.
Proof.
  simpl. apply Advance_heap_other. simpl.
  intros Hin. apply list_elem_of_filter in Hin as [Hne _]. done.
Qed.

(** ** What [Advance] does to a listed waiter *)

Lemma Advance_fires d fc p w :
  NoDup (waiters fc) → p ∈ waiters fc → heap fc !! p = Some w →
  timeout w <= d →
  heap (Advance d fc) !! p
    = Some (mkWaiter 0 (try_send (notifyCh w) (curTime fc)) (consumerWaiting w)) ∧
  p ∉ waiters (Advance d fc).
Proof.
  intros Hnd Hin Hw Hle. split.
  - rewrite (Advance_heap_visited d fc p w) by done. unfold Advance_waiter.
    destruct (Z.leb_spec (timeout w) d); [done|lia].
  - rewrite Advance_waiters by done. rewrite list_elem_of_filter, armed_true.
    intros [(w' & Hw' & Hlt) _]. simplify_eq. lia.
Qed.

Lemma Advance_keeps d fc p w :
  NoDup (waiters fc) → p ∈ waiters fc → heap fc !! p = Some w →
  d < timeout w →
  heap (Advance d fc) !! p
    = Some (mkWaiter (sub64 (timeout w) d) (notifyCh w) (consumerWaiting w)) ∧
  p ∈ waiters (Advance d fc).
Proof.
  intros Hnd Hin Hw Hlt. split.
  - rewrite (Advance_heap_visited d fc p w) by done. unfold Advance_waiter.
    destruct (Z.leb_spec (timeout w) d); [lia|done].
  - rewrite Advance_waiters by done. rewrite list_elem_of_filter, armed_true.
    eauto.
Qed.

Lemma slot_lookup fc p w : heap fc !! p = Some w → slot fc p = buf (notifyCh w).
Proof. unfold slot. by intros ->. Qed.

Lemma remaining_lookup fc p w : heap fc !! p = Some w → remaining fc p = Some (timeout w).
Proof. unfold remaining. by intros ->. Qed.

(** Registration: where the new waiter is, and that the others stay. *)
Lemma register_new d b fc :
  let fc' := mkFakeClock (heap fc ++ [makeWaiter d b])
                         (waiters fc ++ [length (heap fc)]) (curTime fc) in
  heap fc' !! length (heap fc) = Some (makeWaiter d b) ∧
  length (heap fc) ∈ waiters fc'.
Proof.
  simpl. split.
  - rewrite lookup_app_r by lia. by rewrite Nat.sub_diag.
  - apply elem_of_app. right. apply list_elem_of_here.
Qed.

Lemma register_old d b fc p :
  let fc' := mkFakeClock (heap fc ++ [makeWaiter d b])
                         (waiters fc ++ [length (heap fc)]) (curTime fc) in
  (p < length (heap fc))%nat →
  heap fc' !! p = heap fc !! p ∧ (p ∈ waiters fc → p ∈ waiters fc').
Proof.
  simpl. intros Hlt. split.
  - by apply lookup_app_l.
  - intros Hin. apply elem_of_app. by left.
Qed.

(** ** What takes a listed waiter out of the list *)

(** A transition that finds a waiter listed and leaves it unlisted is an
    [Advance] that fires it or a [Stop] on its handle. *)
Lemma step_unlists_by_fire_or_Stop fc a p :
  wf fc → p ∈ waiters fc → p ∉ waiters (step fc a) →
  (∃ d r, a = ActAdvance d ∧ remaining fc p = Some r ∧ r <= d) ∨
  a = ActStop (mkTimer p).
Proof.
  intros Hwf Hin Hout.
  destruct a as [d|d|d|ft|ft d|ft|q]; simpl in Hout.
  - destruct Hout. apply elem_of_app. by left.
  - destruct Hout. apply elem_of_app. by left.
  - left. assert (is_Some (heap fc !! p)) as [w Hw].
    { apply lookup_lt_is_Some. by apply (wf_valid _ Hwf). }
    exists d, (timeout w). split; [done|]. split; [by apply remaining_lookup|].
    destruct (decide (timeout w <= d)) as [Hle|Hgt]; [done|].
    destruct (Advance_keeps d fc p w (wf_nodup _ Hwf) Hin Hw) as [_ Hkept]; [lia|].
    done.
  - done.
  - done.
  - right. destruct (decide (ft_waiter ft = p)) as [Heq|Hne].
    + destruct ft. simpl in Heq. by subst.
    + destruct Hout. apply list_elem_of_filter. done.
  - unfold Recv in Hout. destruct (heap fc !! q) as [w|]; [|done].
    destruct (recv (notifyCh w)) as [v c]. done.
Qed.

(** C2 (amended): for a timer created by [NewTimer] in any reachable state
    and any later state [fc2] of the clock in which its waiter is still
    listed: [Advance d] keeps the waiter in the list exactly when its
    remaining duration exceeds [d]; when its remaining duration is at most
    [d], [Advance d] fires it (duration 0, the current time as the one value
    of its channel) and takes it out of the list; and a transition that takes
    it out of the list is such a firing [Advance] or a [Stop] on its handle,
    so that [After], [NewTimer], [C], [Reset] and receives keep it listed.
    [Stop] on the handle removes it from the list in every case. *)
Theorem C2_timer_waiter_kept_iff_not_fired
    (t0 : Time) (before : list action) (d0 : Duration) (after : list action)
    (d : Duration) :
  let '(timer, fc1) := NewTimer d0 (run before (NewFakeClock t0)) in
  let fc2 := run after fc1 in
  let p := ft_waiter timer in
  p ∈ waiters fc1 ∧
  (p ∈ waiters fc2 →
     (p ∈ waiters (Advance d fc2) ↔ ∃ r, remaining fc2 p = Some r ∧ d < r) ∧
     (∀ r, remaining fc2 p = Some r → r <= d →
        slot (Advance d fc2) p = [Now fc2] ∧
        remaining (Advance d fc2) p = Some 0 ∧
        p ∉ waiters (Advance d fc2)) ∧
     (∀ a, p ∉ waiters (step fc2 a) →
        (∃ d' r, a = ActAdvance d' ∧ remaining fc2 p = Some r ∧ r <= d') ∨
        a = ActStop timer)) ∧
  (p ∉ waiters (Stop timer fc2).2).
Proof.
  simpl. split; [|split].
  - apply elem_of_app. right. apply list_elem_of_here.
  - intros Hp.
    set (fc1 := mkFakeClock _ _ _) in *.
    assert (Hwf : wf (run after fc1)).
    { apply wf_run. apply (wf_NewTimer d0), wf_run, wf_NewFakeClock. }
    split; [|split].
    + rewrite Advance_waiters by apply Hwf.
      rewrite list_elem_of_filter, armed_true. unfold remaining. split.
      * intros [(w & Hw & Hlt) _]. exists (timeout w). by rewrite Hw.
      * intros (r & Hr & Hlt). split; [|done].
        destruct (heap (run after fc1) !! _) as [w|]; simplify_eq/=. eauto.
    + intros r Hr Hle. unfold remaining in Hr.
      destruct (heap (run after fc1) !! _) as [w|] eqn:Hw; simplify_eq/=.
      destruct (Advance_fires d _ _ w (wf_nodup _ Hwf) Hp Hw Hle) as [Hheap Hout].
      rewrite (slot_lookup _ _ _ Hheap), (remaining_lookup _ _ _ Hheap). simpl.
      split; [|done].
      apply try_send_empty; [exact (wf_cap _ Hwf _ _ Hw)|exact (wf_idle _ Hwf _ _ Hp Hw)].
    + intros a Hout. by apply step_unlists_by_fire_or_Stop.
  - intros Hin. apply list_elem_of_filter in Hin as [Hne _]. done.
Qed.

(** A ten-minute timer survives an advance of five minutes; an advance of
    ten fires it; fetching its channel does not unlist it; a [Stop] does. *)
Lemma C2_timer_waiter_kept_iff_not_fired_witness :
  let '(timer, fc1) := NewTimer (10 * minute) (NewFakeClock 0) in
  ft_waiter timer ∈ waiters (Advance (5 * minute) fc1) ∧
  slot (Advance (10 * minute) fc1) (ft_waiter timer) = [0] ∧
  ft_waiter timer ∈ waiters (step fc1 (ActC timer)) ∧
  ft_waiter timer ∉ waiters (Stop timer fc1).2.
Proof.
  pose proof (C2_timer_waiter_kept_iff_not_fired 0 [] (10 * minute) [] (5 * minute))
    as (Hin & Hlisted & Hstop).
  pose proof (C2_timer_waiter_kept_iff_not_fired 0 [] (10 * minute) [] (10 * minute))
    as (_ & Hlisted' & _).
  destruct (Hlisted Hin) as (Hkept & _ & Honly).
  destruct (Hlisted' Hin) as (_ & Hfire & _).
  split; [|split; [|split; [|exact Hstop]]].
  - apply Hkept. exists (10 * minute). split; [reflexivity|].
    vm_compute. reflexivity.
  - destruct (Hfire (10 * minute)) as [Hslot _]; [reflexivity|lia|exact Hslot].
  - destruct (decide (0%nat ∈ waiters (step (NewTimer (10 * minute) (NewFakeClock 0)).2
                                          (ActC (mkTimer 0))))) as [Hyes|Hno];
      [exact Hyes|].
    destruct (Honly (ActC (mkTimer 0)) Hno) as [(d' & r & Heq & _)|Heq]; discriminate.
Defined.

(** C4: in a reachable state, [Advance d] treats every listed waiter by its
    remaining duration [timeout w].  If [timeout w <= d], the duration
    becomes 0 and the current time of the clock after the advance is sent
    without blocking on the waiter's channel (where it is then the one
    pending value).  If [timeout w > d], the duration becomes [timeout w - d]
    as Go computes it on [int64], which is exactly [timeout w - d] whenever
    that difference is an [int64] (always so for [d >= 0]), the channel is
    left alone and the waiter stays listed.  In particular, after [After d1] and
    [After d2] with [d1 < d2], advancing by [d1] fires the first waiter only
    and leaves the second listed with [d2 - d1] remaining, and advancing by
    [d2] fires both. *)
Theorem C4_Advance_fires_or_counts_down (fc : FakeClock) (d : Duration) :
  reachable fc →
  (∀ p w, p ∈ waiters fc → heap fc !! p = Some w →
     let fc' := Advance d fc in
     (timeout w <= d →
        heap fc' !! p
          = Some (mkWaiter 0 (try_send (notifyCh w) (Now fc')) (consumerWaiting w)) ∧
        slot fc' p = [Now fc']) ∧
     (d < timeout w →
        heap fc' !! p
          = Some (mkWaiter (sub64 (timeout w) d) (notifyCh w) (consumerWaiting w)) ∧
        (int64 (timeout w - d) → remaining fc' p = Some (timeout w - d)) ∧
        (0 <= d → remaining fc' p = Some (timeout w - d)) ∧
        p ∈ waiters fc')) ∧
  (∀ d1 d2, d1 < d2 →
     let '(c1, fc1) := After d1 fc in
     let '(c2, fc2) := After d2 fc1 in
     let by1 := Advance d1 fc2 in
     let by2 := Advance d2 fc2 in
     (slot by1 c1 = [Now by1] ∧ remaining by1 c1 = Some 0 ∧ (c1 ∉ waiters by1) ∧
      slot by1 c2 = [] ∧ c2 ∈ waiters by1 ∧
      remaining by1 c2 = Some (sub64 d2 d1) ∧
      (int64 (d2 - d1) → remaining by1 c2 = Some (d2 - d1)) ∧
      (int64 d2 → 0 <= d1 → remaining by1 c2 = Some (d2 - d1))) ∧
     (slot by2 c1 = [Now by2] ∧ remaining by2 c1 = Some 0 ∧ (c1 ∉ waiters by2) ∧
      slot by2 c2 = [Now by2] ∧ remaining by2 c2 = Some 0 ∧ c2 ∉ waiters by2)).
Proof.
  intros Hreach. pose proof (reachable_wf fc Hreach) as Hwf. split.
  - intros p w Hin Hw. simpl. unfold Now. rewrite Advance_curTime.
    destruct Hwf as [Hnd _ Hcap _ Hidle]. split.
    + intros Hle.
      destruct (Advance_fires d fc p w Hnd Hin Hw Hle) as [Hheap _].
      split; [done|]. rewrite (slot_lookup _ _ _ Hheap). simpl.
      apply try_send_empty; eauto.
    + intros Hlt.
      destruct (Advance_keeps d fc p w Hnd Hin Hw Hlt) as [Hheap Hkept].
      split; [done|]. rewrite (remaining_lookup _ _ _ Hheap). simpl.
      split; [|split; [|done]].
      * intros Hr. by rewrite sub64_exact.
      * intros Hd. rewrite sub64_nonneg; [done| |done].
        by eapply (reachable_timeouts_int64 fc).
  - intros d1 d2 Hlt. simpl.
    set (c1 := length (heap fc)).
    set (fc1 := mkFakeClock (heap fc ++ [makeWaiter d1 true]) (waiters fc ++ [c1])
                  (curTime fc)).
    assert (Hwf1 : wf fc1) by by apply wf_register.
    replace (length (heap fc ++ [makeWaiter d1 true])) with (length (heap fc1)) by done.
    set (c2 := length (heap fc1)).
    set (fc2 := mkFakeClock _ _ _).
    assert (Hwf2 : wf fc2) by by apply (wf_register d2 true fc1).
    destruct (register_new d1 true fc) as [Hc1 Hin1]. fold c1 fc1 in Hc1, Hin1.
    destruct (register_new d2 true fc1) as [Hc2 Hin2]. fold c2 fc2 in Hc2, Hin2.
    destruct (register_old d2 true fc1 c1) as [Hc1' Hin1'].
    { by eapply lookup_lt_Some. }
    fold fc2 in Hc1', Hin1'. rewrite Hc1 in Hc1'. specialize (Hin1' Hin1).
    destruct Hwf2 as [Hnd _ _ _ _]. unfold Now. rewrite !Advance_curTime.
    split.
    + destruct (Advance_fires d1 fc2 c1 _ Hnd Hin1' Hc1') as [H1 H1out]; [simpl; lia|].
      destruct (Advance_keeps d1 fc2 c2 _ Hnd Hin2 Hc2) as [H2 H2in]; [done|].
      rewrite (slot_lookup _ _ _ H1), (remaining_lookup _ _ _ H1).
      rewrite (slot_lookup _ _ _ H2), (remaining_lookup _ _ _ H2). simpl.
      repeat split; try done.
      * intros Hr. by rewrite sub64_exact.
      * intros Hr Hd. by rewrite sub64_nonneg.
    + destruct (Advance_fires d2 fc2 c1 _ Hnd Hin1' Hc1') as [H1 H1out]; [simpl; lia|].
      destruct (Advance_fires d2 fc2 c2 _ Hnd Hin2 Hc2) as [H2 H2out]; [simpl; lia|].
      rewrite (slot_lookup _ _ _ H1), (remaining_lookup _ _ _ H1).
      rewrite (slot_lookup _ _ _ H2), (remaining_lookup _ _ _ H2). done.
Qed.

(** A ten-minute timeout after advances of one and of ten minutes, and a
    one-minute timeout registered after a one-second one. *)
Lemma C4_Advance_fires_or_counts_down_witness :
  let fc := run [ActAfter (10 * minute)] (NewFakeClock 0) in
  reachable fc ∧
  remaining (Advance minute fc) 0%nat = Some (9 * minute) ∧
  slot (Advance (10 * minute) fc) 0%nat = [0] ∧
  remaining (Advance second (After minute (After second fc).2).2) 2%nat
    = Some (59 * second).
Proof.
  assert (Hreach : reachable (run [ActAfter (10 * minute)] (NewFakeClock 0))).
  { exists 0, [ActAfter (10 * minute)]. split; [|reflexivity].
    repeat constructor; vm_compute; discriminate. }
  split; [exact Hreach|].
  split; [|split].
  - destruct (C4_Advance_fires_or_counts_down _ minute Hreach) as [Hper _].
    destruct (Hper 0%nat (makeWaiter (10 * minute) true)) as [_ Hkeep].
    { apply list_elem_of_here. }
    { reflexivity. }
    destruct Hkeep as (_ & Hexact & _).
    { vm_compute. reflexivity. }
    apply Hexact. vm_compute. split; discriminate.
  - destruct (C4_Advance_fires_or_counts_down _ (10 * minute) Hreach) as [Hper _].
    destruct (Hper 0%nat (makeWaiter (10 * minute) true)) as [Hfire _].
    { apply list_elem_of_here. }
    { reflexivity. }
    destruct Hfire as [_ Hslot].
    { vm_compute. discriminate. }
    exact Hslot.
  - destruct (C4_Advance_fires_or_counts_down _ 0 Hreach) as [_ Htwo].
    specialize (Htwo second minute). simpl in Htwo.
    destruct Htwo as [(_ & _ & _ & _ & _ & _ & Hexact & _) _].
    { vm_compute. reflexivity. }
    apply Hexact. vm_compute. split; discriminate.
Defined.

(** ** Waiters that are not listed *)

Lemma Advance_loop_subset d now ws h acc q :
  q ∈ (Advance_loop d now ws h acc).2 → q ∈ acc ∨ q ∈ ws.
Proof.
  revert h acc. induction ws as [|p ws IH]; intros h acc; simpl; [by left|].
  destruct (h !! p) as [w|].
  - destruct (Advance_waiter d now w) as [w' keep]. intros Hq.
    apply IH in Hq as [Hq|Hq]; [|right; by apply elem_of_cons; right].
    destruct keep; [|by left].
    apply elem_of_app in Hq as [Hq|Hq]; [by left|].
    apply list_elem_of_singleton in Hq as ->. right. apply list_elem_of_here.
  - intros Hq. apply IH in Hq as [Hq|Hq]; [by left|].
    right. by apply elem_of_cons; right.
Qed.

Lemma Advance_waiters_subset d fc q : q ∈ waiters (Advance d fc) → q ∈ waiters fc.
Proof.
  rewrite Advance_unfold. simpl. intros Hq.
  apply Advance_loop_subset in Hq as [Hq|Hq]; [|done].
  by apply elem_of_nil in Hq.
Qed.

Lemma slot_alter (f : waiter → waiter) i fc h' q :
  (∀ w, notifyCh (f w) = notifyCh w) →
  slot (mkFakeClock (alter f i (heap fc)) h' (curTime fc)) q = slot fc q.
Proof.
  intros Hf. unfold slot. simpl. rewrite list_lookup_alter. case_decide as Heq.
  - subst q. destruct (heap fc !! i); simpl; [by rewrite Hf|done].
  - done.
Qed.

(** A waiter that is allocated but not listed stays so, and nothing is sent
    on its channel: its buffer can only lose values to a receiver. *)
Lemma step_detached fc a p :
  (p < length (heap fc))%nat → p ∉ waiters fc →
  (p < length (heap (step fc a)))%nat ∧ (p ∉ waiters (step fc a)) ∧
  slot (step fc a) p `suffix_of` slot fc p.
Proof.
  intros Hlt Hout.
  assert (Hreg : ∀ d b,
    let fc' := mkFakeClock (heap fc ++ [makeWaiter d b])
                           (waiters fc ++ [length (heap fc)]) (curTime fc) in
    (p < length (heap fc'))%nat ∧ (p ∉ waiters fc') ∧ slot fc' p `suffix_of` slot fc p).
  { intros d b. simpl. split; [rewrite length_app; lia|]. split.
    - intros Hin. apply elem_of_app in Hin as [Hin|Hin]; [done|].
      apply list_elem_of_singleton in Hin. lia.
    - unfold slot. simpl. by rewrite lookup_app_l. }
  destruct a as [d|d|d|ft|ft d|ft|q]; simpl.
  - apply Hreg.
  - apply Hreg.
  - split; [by rewrite Advance_heap_length|]. split.
    + intros Hin. by apply Advance_waiters_subset in Hin.
    + unfold slot. by rewrite Advance_heap_other.
  - split; [by rewrite length_alter|]. split; [done|].
    by rewrite slot_alter.
  - split; [by rewrite length_alter|]. split; [done|].
    unfold Reset. by rewrite slot_alter.
  - split; [done|]. split; [|done].
    intros Hin. by apply list_elem_of_filter in Hin as [_ Hin].
  - unfold Recv. destruct (heap fc !! q) as [w|] eqn:Hw; [|done].
    pose proof (recv_suffix (notifyCh w)) as Hs.
    destruct (recv (notifyCh w)) as [v c]. simpl in *.
    split; [by rewrite length_insert|]. split; [done|].
    unfold slot. simpl. destruct (decide (q = p)) as [->|Hne].
    + rewrite list_lookup_insert_eq by done. by rewrite Hw.
    + by rewrite list_lookup_insert_ne.
Qed.

Lemma run_detached acts fc p :
  (p < length (heap fc))%nat → p ∉ waiters fc →
  (p < length (heap (run acts fc)))%nat ∧ (p ∉ waiters (run acts fc)) ∧
  slot (run acts fc) p `suffix_of` slot fc p.
Proof.
  revert fc. induction acts as [|a acts IH]; intros fc Hlt Hout; simpl; [done|].
  destruct (step_detached fc a p Hlt Hout) as (Hlt' & Hout' & Hsuf).
  destruct (IH _ Hlt' Hout') as (Hlt'' & Hout'' & Hsuf').
  split; [done|]. split; [done|]. by etrans.
Qed.

(** C5: [Stop] on a handle returns [true] exactly when the remaining
    duration of its waiter is 0 at the call, and takes the waiter (and
    nothing else) out of the waiter list.  From then on, whatever transitions
    follow, the waiter is not listed, no value is added to its channel (its
    buffer can only lose values to a receiver), and every [Advance] leaves
    the waiter object as it finds it. *)
Theorem C5_Stop_reports_and_detaches (fc : FakeClock) (ft : fakeClockTimer) (w : waiter) :
  heap fc !! ft_waiter ft = Some w →
  let '(fired, fc') := Stop ft fc in
  let p := ft_waiter ft in
  (fired = true ↔ timeout w = 0) ∧
  waiters fc' = filter (λ q, q ≠ p) (waiters fc) ∧
  heap fc' = heap fc ∧
  (p ∉ waiters fc') ∧
  ∀ acts : list action,
    let later := run acts fc' in
    (p ∉ waiters later) ∧
    slot later p `suffix_of` slot fc p ∧
    ∀ d, heap (Advance d later) !! p = heap later !! p ∧
         slot (Advance d later) p = slot later p.
Proof.
  intros Hw. simpl. rewrite Hw.
  assert (Hout : ft_waiter ft ∉ filter (λ q, q ≠ ft_waiter ft) (waiters fc)).
  { intros Hin. by apply list_elem_of_filter in Hin as [Hne _]. }
  split; [apply Z.eqb_eq|]. split; [done|]. split; [done|]. split; [done|].
  intros acts.
  edestruct (run_detached acts (Stop ft fc).2 (ft_waiter ft)) as (_ & Hout' & Hsuf).
  { simpl. by eapply lookup_lt_Some. }
  { done. }
  split; [done|]. split; [done|].
  intros d. unfold slot. by rewrite Advance_heap_other.
Qed.

(** A ten-minute timer stopped before any advance. *)
Lemma C5_Stop_reports_and_detaches_witness :
  let '(timer, fc1) := NewTimer (10 * minute) (NewFakeClock 0) in
  let '(fired, fc2) := Stop timer fc1 in
  (fired = true ↔ 10 * minute = 0) ∧
  slot (Advance (10 * minute) fc2) (ft_waiter timer) = slot fc2 (ft_waiter timer).
Proof.
  pose proof (C5_Stop_reports_and_detaches
                (NewTimer (10 * minute) (NewFakeClock 0)).2
                (NewTimer (10 * minute) (NewFakeClock 0)).1
                (makeWaiter (10 * minute) false)) as H.
  simpl in H. destruct H as (Hfired & _ & _ & _ & Hlater); [reflexivity|].
  simpl. split; [exact Hfired|].
  destruct (Hlater []) as (_ & _ & Hadv). apply (Hadv (10 * minute)).
Defined.

(** ** One pending notification *)

(** C6: in every reachable state the channel of every waiter holds at most
    one value.  A send on a full channel of capacity one returns the channel
    as it was; accordingly, when [Advance] fires a listed waiter [p] of any
    state [st] whose channel already holds a value [v], the channel holds
    [v] alone afterwards: the new notification is dropped, not queued, and
    [v] is not overwritten ([Advance] is a total function: it neither blocks
    nor fails).  And when an [Advance] fires a waiter of a reachable state, a
    second [Advance] that follows with no receive in between leaves exactly
    one value in the channel. *)
Theorem C6_one_pending_notification (fc : FakeClock) (p : ptr) :
  reachable fc →
  (length (slot fc p) ≤ 1)%nat ∧
  (∀ c v new, cap c = 1%nat → buf c = [v] → try_send c new = c) ∧
  (∀ st d w v,
     NoDup (waiters st) → p ∈ waiters st → heap st !! p = Some w →
     cap (notifyCh w) = 1%nat → buf (notifyCh w) = [v] → timeout w <= d →
     slot (Advance d st) p = [v]) ∧
  (∀ w d1 d2,
     p ∈ waiters fc → heap fc !! p = Some w → timeout w <= d1 →
     slot (Advance d1 fc) p = [Now fc] ∧
     slot (Advance d2 (Advance d1 fc)) p = [Now fc]).
Proof.
  intros Hreach. pose proof (reachable_wf fc Hreach) as Hwf.
  assert (Hfull : ∀ c v new, cap c = 1%nat → buf c = [v] → try_send c new = c).
  { intros c v new Hcap Hbuf. apply try_send_full. by rewrite Hcap, Hbuf. }
  split; [|split; [done|split]].
  - unfold slot. destruct (heap fc !! p) as [w|] eqn:Hw; simpl; [|lia].
    by eapply wf_buf.
  - intros st d w v Hnd Hin Hw Hcap Hbuf Hle.
    destruct (Advance_fires d st p w Hnd Hin Hw Hle) as [Hheap _].
    rewrite (slot_lookup _ _ _ Hheap). simpl.
    by rewrite (Hfull _ v).
  - intros w d1 d2 Hin Hw Hle.
    destruct (Advance_fires d1 fc p w (wf_nodup _ Hwf) Hin Hw Hle) as [Hheap Hout].
    assert (Hslot : slot (Advance d1 fc) p = [Now fc]).
    { rewrite (slot_lookup _ _ _ Hheap). simpl. apply try_send_empty.
      - by eapply wf_cap.
      - by eapply wf_idle. }
    split; [done|]. rewrite <- Hslot. unfold slot.
    by rewrite Advance_heap_other.
Qed.

(** A waiter whose channel is full when it fires, and a timeout advanced
    twice past its expiry. *)
Lemma C6_one_pending_notification_witness :
  let fc := run [ActAfter (10 * minute)] (NewFakeClock 0) in
  let st := mkFakeClock [mkWaiter (5 * minute) (mkChan 1 [7]) true] [0%nat] 9 in
  reachable fc ∧
  slot (Advance (5 * minute) st) 0%nat = [7] ∧
  slot (Advance minute (Advance (10 * minute) fc)) 0%nat = [0].
Proof.
  assert (Hreach : reachable (run [ActAfter (10 * minute)] (NewFakeClock 0))).
  { exists 0, [ActAfter (10 * minute)]. split; [|reflexivity].
    repeat constructor; vm_compute; discriminate. }
  destruct (C6_one_pending_notification _ 0%nat Hreach) as (_ & _ & Hdrop & Htwice).
  split; [exact Hreach|]. split.
  - apply (Hdrop _ (5 * minute) (mkWaiter (5 * minute) (mkChan 1 [7]) true) 7).
    + apply NoDup_singleton.
    + apply list_elem_of_here.
    + reflexivity.
    + reflexivity.
    + reflexivity.
    + vm_compute. discriminate.
  - apply (Htwice (makeWaiter (10 * minute) true) (10 * minute) minute).
    + apply list_elem_of_here.
    + reflexivity.
    + vm_compute. discriminate.
Defined.

(** ** Zero durations *)

(** Transitions other than [Advance], and than [Reset] and [Stop] on [p],
    keep a listed waiter listed, with the remaining duration it has. *)
Lemma step_leaves_armed fc a p r :
  p ∈ waiters fc → remaining fc p = Some r → leaves_armed p a →
  p ∈ waiters (step fc a) ∧ remaining (step fc a) p = Some r.
Proof.
  unfold remaining. intros Hin Hr Ha.
  assert (Hlt : (p < length (heap fc))%nat).
  { destruct (heap fc !! p) eqn:Hw; [by eapply lookup_lt_Some|done]. }
  destruct a as [d|d|d|ft|ft d|ft|q]; simpl in *.
  - split; [apply elem_of_app; by left|]. by rewrite lookup_app_l.
  - split; [apply elem_of_app; by left|]. by rewrite lookup_app_l.
  - done.
  - split; [done|]. rewrite list_lookup_alter. case_decide as Heq; [|done].
    subst p. by destruct (heap fc !! ft_waiter ft).
  - split; [done|]. rewrite list_lookup_alter_ne; [done|].
    intros Heq. rewrite Heq, Nat.eqb_refl in Ha. done.
  - split; [|done]. apply list_elem_of_filter. split; [|done].
    intros Heq. rewrite Heq, Nat.eqb_refl in Ha. done.
  - unfold Recv. destruct (heap fc !! q) as [w|] eqn:Hw; [|done].
    destruct (recv (notifyCh w)) as [v c]. simpl. split; [done|].
    destruct (decide (q = p)) as [->|Hne].
    + rewrite list_lookup_insert_eq by done. rewrite Hw in Hr. done.
    + by rewrite list_lookup_insert_ne.
Qed.

Lemma run_leaves_armed acts fc p r :
  p ∈ waiters fc → remaining fc p = Some r → Forall (λ a, leaves_armed p a) acts →
  p ∈ waiters (run acts fc) ∧ remaining (run acts fc) p = Some r.
Proof.
  intros Hin Hr Hacts. revert fc Hin Hr.
  induction Hacts as [|a acts Ha _ IH]; intros fc Hin Hr; simpl; [done|].
  destruct (step_leaves_armed fc a p r Hin Hr Ha) as [Hin' Hr'].
  by apply IH.
Qed.

(** A listed waiter with nothing left fires on [Advance d] for [d >= 0]. *)
Lemma Advance_fires_expired d fc p :
  wf fc → p ∈ waiters fc → remaining fc p = Some 0 → 0 <= d →
  slot (Advance d fc) p = [Now fc] ∧ remaining (Advance d fc) p = Some 0 ∧
  p ∉ waiters (Advance d fc).
Proof.
  unfold remaining. intros Hwf Hin Hr Hd.
  destruct (heap fc !! p) as [w|] eqn:Hw; [|done]. simplify_eq/=.
  destruct (Advance_fires d fc p w (wf_nodup _ Hwf) Hin Hw) as [Hheap Hout]; [lia|].
  rewrite (slot_lookup _ _ _ Hheap). unfold remaining. rewrite Hheap. simpl.
  split; [|done]. apply try_send_empty; [by eapply wf_cap|by eapply wf_idle].
Qed.

(** C8: in a reachable state, [Advance 0] fires the listed waiters whose
    remaining duration is used up ([timeout w <= 0]): each gets duration 0 and
    the current time as the one value of its channel, and leaves the list.
    Nothing else changes: the current time, every other waiter object, and
    the other listed waiters, which stay listed in their order.  And a waiter
    registered with duration 0, by [After] or by [NewTimer], fires on the
    next [Advance d] with [d > 0], whatever transitions other than an
    [Advance], or a [Reset] or [Stop] of that very waiter, come in between. *)
Theorem C8_zero_durations (fc : FakeClock) :
  reachable fc →
  (let fc' := Advance 0 fc in
   Now fc' = Now fc ∧
   length (heap fc') = length (heap fc) ∧
   waiters fc' = filter (λ p, armed 0 (heap fc) p) (waiters fc) ∧
   ∀ p w, heap fc !! p = Some w →
     (p ∈ waiters fc → timeout w <= 0 →
        heap fc' !! p = Some (mkWaiter 0 (mkChan 1 [Now fc]) (consumerWaiting w)) ∧
        p ∉ waiters fc') ∧
     (p ∈ waiters fc → 0 < timeout w →
        heap fc' !! p = Some w ∧ p ∈ waiters fc') ∧
     (p ∉ waiters fc → heap fc' !! p = Some w ∧ p ∉ waiters fc')) ∧
  (∀ (b : bool) (acts : list action) (d : Duration),
     0 < d →
     let p := length (heap fc) in
     let fc1 := if b then (After 0 fc).2 else (NewTimer 0 fc).2 in
     Forall (λ a, leaves_armed p a) acts →
     let fc2 := Advance d (run acts fc1) in
     (After 0 fc).1 = p ∧ ft_waiter (NewTimer 0 fc).1 = p ∧
     slot (run acts fc1) p = [] ∧
     slot fc2 p = [Now fc2] ∧ remaining fc2 p = Some 0 ∧ p ∉ waiters fc2).
Proof.
  intros Hreach. pose proof (reachable_wf fc Hreach) as Hwf.
  pose proof (reachable_timeouts_int64 fc Hreach) as Hint.
  split.
  - simpl. split; [apply Advance_curTime|].
    split; [apply Advance_heap_length|].
    split; [apply Advance_waiters, Hwf|].
    intros p w Hw. split; [|split].
    + intros Hin Hle.
      destruct (Advance_fires 0 fc p w (wf_nodup _ Hwf) Hin Hw Hle) as [Hheap Hout].
      split; [|done]. rewrite Hheap. do 2 f_equal.
      pose proof (wf_cap _ Hwf p w Hw) as Hcap.
      pose proof (wf_idle _ Hwf p w Hin Hw) as Hbuf.
      unfold try_send. rewrite Hcap, Hbuf. done.
    + intros Hin Hlt.
      destruct (Advance_keeps 0 fc p w (wf_nodup _ Hwf) Hin Hw Hlt) as [Hheap Hkept].
      split; [|done]. rewrite Hheap, sub64_zero by by eapply Hint.
      by destruct w.
    + intros Hout. split; [by rewrite Advance_heap_other|].
      intros Hin. by apply Advance_waiters_subset in Hin.
  - intros b acts d Hd p fc1 Hacts fc2.
    assert (Hfc1 : fc1 = mkFakeClock (heap fc ++ [makeWaiter 0 b])
                           (waiters fc ++ [p]) (curTime fc)).
    { subst fc1. by destruct b. }
    assert (Hwf1 : wf fc1) by (rewrite Hfc1; by apply wf_register).
    destruct (register_new 0 b fc) as [Hnew Hin]. fold p in Hnew, Hin.
    rewrite <- Hfc1 in Hnew, Hin.
    destruct (run_leaves_armed acts fc1 p 0 Hin) as [Hin' Hr']; [|done|].
    { unfold remaining. by rewrite Hnew. }
    pose proof (wf_run acts fc1 Hwf1) as Hwf2.
    split; [done|]. split; [done|]. split.
    + unfold slot. unfold remaining in Hr'.
      destruct (heap (run acts fc1) !! p) as [w|] eqn:Hw; [|done].
      by eapply wf_idle.
    + subst fc2. unfold Now at 1. rewrite Advance_curTime.
      apply Advance_fires_expired; [done..|lia].
Qed.

(** A zero timeout and a one-minute timer under [Advance 0], and a zero timer
    whose channel is fetched before the next advance. *)
Lemma C8_zero_durations_witness :
  let fc := run [ActAfter 0; ActNewTimer minute] (NewFakeClock 0) in
  reachable fc ∧
  slot (Advance 0 fc) 0%nat = [0] ∧
  remaining (Advance 0 fc) 1%nat = Some minute ∧
  slot (Advance second (run [ActC (mkTimer 2)] (NewTimer 0 fc).2)) 2%nat = [0].
Proof.
  assert (Hreach : reachable (run [ActAfter 0; ActNewTimer minute] (NewFakeClock 0))).
  { exists 0, [ActAfter 0; ActNewTimer minute]. split; [|reflexivity].
    repeat constructor; vm_compute; discriminate. }
  destruct (C8_zero_durations _ Hreach) as [(_ & _ & _ & Hzero) Hnext].
  split; [exact Hreach|]. split; [|split].
  - destruct (Hzero 0%nat (makeWaiter 0 true)) as [Hfire _]; [reflexivity|].
    destruct Hfire as [Hheap _].
    + apply list_elem_of_here.
    + vm_compute. discriminate.
    + unfold slot. rewrite Hheap. reflexivity.
  - destruct (Hzero 1%nat (makeWaiter minute false)) as (_ & Hkeep & _); [reflexivity|].
    destruct Hkeep as [Hheap _].
    + apply list_elem_of_further, list_elem_of_here.
    + vm_compute. reflexivity.
    + unfold remaining. rewrite Hheap. reflexivity.
  - destruct (Hnext false [ActC (mkTimer 2)] second) as (_ & _ & _ & Hslot & _).
    + vm_compute. reflexivity.
    + repeat constructor.
    + exact Hslot.
Defined.

(** ** A pass of [WaitAdvance] *)

Lemma watched_nonneg h ws : 0 <= watched h ws.
Proof. induction ws as [|p ws IH]; simpl; [done|]. destruct (is_watched h p); lia. Qed.

Lemma watched_take_le h k ws : watched h (take k ws) <= watched h ws.
Proof.
  revert k. induction ws as [|p ws IH]; intros [|k]; simpl; try done.
  - pose proof (watched_nonneg h ws). destruct (is_watched h p); lia.
  - specialize (IH k). lia.
Qed.

Lemma WaitAdvance_scan_cons n h p ws c :
  WaitAdvance_scan n h (p :: ws) c =
  let c' := c + (if is_watched h p then 1 else 0) in
  if c' =? n then true else WaitAdvance_scan n h ws c'.
Proof.
  simpl. unfold is_watched. destruct (h !! p) as [w|].
  - destruct (consumerWaiting w); [done|]. by rewrite Z.add_0_r.
  - by rewrite Z.add_0_r.
Qed.

(** The pass returns exactly when the running count equals [n] right after
    some waiter of the list. *)
Lemma WaitAdvance_scan_true n h ws c :
  WaitAdvance_scan n h ws c = true ↔
  ∃ k, (0 < k ≤ length ws)%nat ∧ c + watched h (take k ws) = n.
Proof.
  revert c. induction ws as [|p ws IH]; intros c.
  { simpl. split; [done|]. intros (k & Hk & _). lia. }
  rewrite WaitAdvance_scan_cons. simpl.
  destruct (Z.eqb_spec (c + (if is_watched h p then 1 else 0)) n) as [Heq|Hne].
  - split; [|done]. intros _. exists 1%nat. simpl. rewrite ?take_0. simpl.
    split; lia.
  - rewrite IH. split.
    + intros (k & Hk & Hsum). exists (S k). simpl. split; lia.
    + intros ([|[|k]] & Hk & Hsum); simpl in *; [lia| |].
      * rewrite ?take_0 in Hsum. simpl in Hsum. lia.
      * exists (S k). simpl. split; lia.
Qed.

Lemma WaitAdvance_scan_reached n h ws c :
  WaitAdvance_scan n h ws c = true → c <= n <= c + watched h ws.
Proof.
  rewrite WaitAdvance_scan_true. intros (k & _ & <-).
  pose proof (watched_nonneg h (take k ws)).
  pose proof (watched_take_le h k ws). lia.
Qed.

Lemma WaitAdvance_scan_complete n h ws c :
  c < n <= c + watched h ws → WaitAdvance_scan n h ws c = true.
Proof.
  revert c. induction ws as [|p ws IH]; intros c Hn.
  { simpl in Hn. lia. }
  rewrite WaitAdvance_scan_cons. simpl in *.
  destruct (Z.eqb_spec (c + (if is_watched h p then 1 else 0)) n); [done|].
  apply IH. destruct (is_watched h p); lia.
Qed.

(** ** The trace of [WaitAdvance] *)

Lemma WaitAdvance_scans_faithful n d sched fc fck hit :
  EvScan fck hit ∈ (WaitAdvance n d sched fc).2 → hit = WaitAdvance_pass n fck.
Proof.
  revert fc. induction sched as [|others rest IH]; intros fc; simpl.
  { intros Hin. by apply elem_of_nil in Hin. }
  destruct (WaitAdvance_pass n fc) eqn:Hpass; simpl.
  - intros Hin. apply elem_of_cons in Hin as [[= -> ->]|Hin]; [done|].
    apply list_elem_of_singleton in Hin. done.
  - specialize (IH (run others fc)).
    destruct (WaitAdvance n d rest (run others fc)) as [[s fc'] tr]. simpl in *.
    intros Hin. apply elem_of_cons in Hin as [[= -> ->]|Hin]; [done|].
    apply elem_of_cons in Hin as [?|Hin]; [done|]. by apply IH.
Qed.

Lemma WaitAdvance_no_advance_before_hit n d sched fc tr1 tr2 :
  (WaitAdvance n d sched fc).2 = tr1 ++ tr2 → advances tr1 ≠ [] →
  ∃ fck, EvScan fck true ∈ tr1.
Proof.
  revert fc tr1. induction sched as [|others rest IH]; intros fc tr1; simpl.
  { intros Htr. symmetry in Htr. apply app_eq_nil in Htr as [-> _]. done. }
  destruct (WaitAdvance_pass n fc) eqn:Hpass; simpl.
  - destruct tr1 as [|e1 [|e2 tr1]]; simpl; intros Htr Hadv; [done| |].
    + by simplify_eq/=.
    + simplify_eq/=. exists fc. apply list_elem_of_here.
  - specialize (IH (run others fc)).
    destruct (WaitAdvance n d rest (run others fc)) as [[s fc'] tr]. simpl in *.
    destruct tr1 as [|e1 [|e2 tr1]]; simpl; intros Htr Hadv; [done| |].
    + by simplify_eq/=.
    + simplify_eq/=. destruct (IH tr1 eq_refl Hadv) as [fck Hin].
      exists fck. by do 2 apply list_elem_of_further.
Qed.

Lemma WaitAdvance_outcome n d sched fc :
  let '(s, fc', tr) := WaitAdvance n d sched fc in
  (s = Returned ∧ advances tr = [d] ∧ last tr = Some (EvAdvance d) ∧
   ∃ fck, EvScan fck true ∈ tr) ∨
  (s = Polling ∧ advances tr = [] ∧ (∀ fck, EvScan fck true ∉ tr) ∧
   length tr = (2 * length sched)%nat).
Proof.
  revert fc. induction sched as [|others rest IH]; intros fc; simpl.
  { right. repeat split; try done. intros fck. apply not_elem_of_nil. }
  destruct (WaitAdvance_pass n fc) eqn:Hpass; simpl.
  - left. repeat split; try done. exists fc. apply list_elem_of_here.
  - specialize (IH (run others fc)).
    destruct (WaitAdvance n d rest (run others fc)) as [[s fc'] tr].
    destruct IH as [(-> & Hadv & Hlast & fck & Hin)|(-> & Hadv & Hno & Hlen)].
    + left. split; [done|]. split; [done|]. split.
      * destruct tr as [|e tr]; [by apply elem_of_nil in Hin|]. done.
      * exists fck. by do 2 apply list_elem_of_further.
    + right. split; [done|]. split; [done|]. split; [|simpl; lia].
      intros fck Hin. apply elem_of_cons in Hin as [Heq|Hin]; [done|].
      apply elem_of_cons in Hin as [?|Hin]; [done|]. by apply (Hno fck).
Qed.

(** With no other goroutine acting, the first pass decides. *)
Lemma WaitAdvance_alone n d k fc :
  WaitAdvance n d (replicate (S k) []) fc =
  if WaitAdvance_pass n fc
  then (Returned, Advance d fc, [EvScan fc true; EvAdvance d])
  else (Polling, fc, misses (replicate (S k) fc)).
Proof.
  destruct (WaitAdvance_pass n fc) eqn:Hpass.
  { simpl. by rewrite Hpass. }
  induction k as [|k IH].
  - simpl. by rewrite Hpass.
  - change (replicate (S (S k)) []) with (@nil action :: replicate (S k) []).
    cbn [WaitAdvance]. rewrite Hpass. cbn [run foldl]. rewrite IH. done.
Qed.

Lemma step_keeps_empty fc a :
  waiters fc = [] → registers a = false → waiters (step fc a) = [].
Proof.
  intros Hws Ha. destruct a as [d|d|d|ft|ft d|ft|q]; simpl in *; try done.
  - rewrite Advance_unfold, Hws. done.
  - by rewrite Hws.
  - unfold Recv. destruct (heap fc !! q) as [w|]; [|done].
    by destruct (recv (notifyCh w)).
Qed.

Lemma run_keeps_empty acts fc :
  waiters fc = [] → Forall (λ a, registers a = false) acts →
  waiters (run acts fc) = [].
Proof.
  intros Hws Hacts. revert fc Hws.
  induction Hacts as [|a acts Ha _ IH]; intros fc Hws; simpl; [done|].
  apply IH. by apply step_keeps_empty.
Qed.

(** The trace of a call of [WaitAdvance numWaiters d] against any
    schedule of the other goroutines: every recorded pass is the scan of the
    state it saw, and a pass that hits has seen at least [numWaiters] listed
    waiters with [consumerWaiting] set; no [Advance] occurs in a prefix of
    the trace that holds no hit; once a pass has hit, the call has invoked
    [Advance d] exactly once, as its last event, and has returned; as long
    as no pass has hit, the call is still polling and has invoked no
    [Advance].  With no other goroutine acting, a first pass that hits makes
    the call return the state [Advance d fc].  For [numWaiters >= 1] a pass
    hits exactly when at least [numWaiters] listed waiters are watched. *)
Lemma WaitAdvance_advances_once_after_a_hit
    (numWaiters : Z) (d : Duration) (sched : list (list action)) (fc : FakeClock) :
  let '(s, fc', tr) := WaitAdvance numWaiters d sched fc in
  (∀ fck hit, EvScan fck hit ∈ tr →
     hit = WaitAdvance_pass numWaiters fck ∧
     (hit = true → 0 <= numWaiters <= watched (heap fck) (waiters fck))) ∧
  (∀ tr1 tr2, tr = tr1 ++ tr2 → advances tr1 ≠ [] → ∃ fck, EvScan fck true ∈ tr1) ∧
  ((∃ fck, EvScan fck true ∈ tr) →
     s = Returned ∧ advances tr = [d] ∧ last tr = Some (EvAdvance d)) ∧
  ((∀ fck, EvScan fck true ∉ tr) →
     s = Polling ∧ advances tr = [] ∧ length tr = (2 * length sched)%nat) ∧
  (∀ k, WaitAdvance_pass numWaiters fc = true →
     WaitAdvance numWaiters d (replicate (S k) []) fc
       = (Returned, Advance d fc, [EvScan fc true; EvAdvance d])) ∧
  (1 <= numWaiters →
     ∀ fck, WaitAdvance_pass numWaiters fck = true ↔
            numWaiters <= watched (heap fck) (waiters fck)).
Proof.
  pose proof (WaitAdvance_scans_faithful numWaiters d sched fc) as Hfaith.
  pose proof (WaitAdvance_no_advance_before_hit numWaiters d sched fc) as Hbefore.
  pose proof (WaitAdvance_outcome numWaiters d sched fc) as Hout.
  destruct (WaitAdvance numWaiters d sched fc) as [[s fc'] tr]. simpl in *.
  split; [|split; [|split; [|split; [|split]]]].
  - intros fck hit Hin. pose proof (Hfaith fck hit Hin) as ->. split; [done|].
    intros Hhit. by apply WaitAdvance_scan_reached in Hhit.
  - done.
  - intros [fck Hin].
    destruct Hout as [(-> & Hadv & Hlast & _)|(_ & _ & Hno & _)]; [done|].
    by destruct (Hno fck).
  - intros Hno.
    destruct Hout as [(_ & _ & _ & fck & Hin)|(-> & Hadv & _ & Hlen)]; [|done].
    by destruct (Hno fck).
  - intros k Hpass. pose proof (WaitAdvance_alone numWaiters d k fc) as Halone.
    rewrite Hpass in Halone. exact Halone.
  - intros Hn fck. split.
    + intros Hhit. apply WaitAdvance_scan_reached in Hhit. lia.
    + intros Hle. apply WaitAdvance_scan_complete. lia.
Qed.

(** The run of [TestWaitAdvance]: the first pass misses, the timer's channel
    is fetched, the second pass hits. *)
Lemma WaitAdvance_advances_once_after_a_hit_example :
  let fc := run [ActAfter (10 * minute); ActNewTimer (10 * minute)] (NewFakeClock 0) in
  let '(s, fc', tr) := WaitAdvance 2 (10 * minute) [[ActC (mkTimer 1)]; []] fc in
  s = Returned ∧ advances tr = [10 * minute] ∧
  (WaitAdvance_pass 2 (run [ActC (mkTimer 1)] fc) = true ↔
   2 <= watched (heap (run [ActC (mkTimer 1)] fc)) (waiters (run [ActC (mkTimer 1)] fc))).
Proof.
  pose proof (WaitAdvance_advances_once_after_a_hit 2 (10 * minute)
    [[ActC (mkTimer 1)]; []]
    (run [ActAfter (10 * minute); ActNewTimer (10 * minute)] (NewFakeClock 0))) as H.
  cbv zeta.
  destruct (WaitAdvance 2 (10 * minute) [[ActC (mkTimer 1)]; []] _)
    as [[s fc'] tr] eqn:Hrun.
  vm_compute in Hrun. injection Hrun as <- <- <-.
  destruct H as (_ & _ & Hhit & _ & _ & Hiff).
  destruct Hhit as (Hs & Hadv & _).
  { eexists. do 2 apply list_elem_of_further. apply list_elem_of_here. }
  split; [exact Hs|]. split; [exact Hadv|].
  apply Hiff. vm_compute. discriminate.
Defined.

Lemma advances_misses seen : advances (misses seen) = [].
Proof. induction seen as [|fc seen IH]; [done|]. exact IH. Qed.

(** With no other goroutine acting, a pass that misses is followed by
    passes that miss. *)
Lemma WaitAdvance_alone_misses n d k fc :
  WaitAdvance_pass n fc = false →
  WaitAdvance n d (replicate k []) fc = (Polling, fc, misses (replicate k fc)).
Proof.
  intros Hpass. destruct k as [|k]; [done|].
  by rewrite WaitAdvance_alone, Hpass.
Qed.

(** For [numWaiters >= 1] a pass hits exactly when at least [numWaiters]
    listed waiters are watched. *)
Lemma WaitAdvance_pass_hits_iff_threshold n fc :
  1 <= n →
  WaitAdvance_pass n fc = true ↔ n <= watched (heap fc) (waiters fc).
Proof.
  intros Hn. split.
  - intros Hhit. apply WaitAdvance_scan_reached in Hhit. lia.
  - intros Hle. apply WaitAdvance_scan_complete. lia.
Qed.

(** C7 (defect of the code): [WaitAdvance 0 d] is called on a clock that
    [NewFakeClock] has just made, and on one with a single [After] waiter,
    with no other goroutine acting.  In both states the number of listed
    waiters with [consumerWaiting] set (0, and 1) has reached the threshold
    0.  Yet every pass misses: after any number [k] of passes the call is
    still polling, the state is untouched and no [Advance] has been invoked.
    On the empty list the loop body that holds the comparison never runs; on
    the other the running count is compared with 0 only after it has become
    1.  The same holds for every negative threshold. *)
Theorem C7_WaitAdvance_misses_the_threshold_zero
    (t0 : Time) (d d0 : Duration) (k : nat) (numWaiters : Z) :
  let fresh := NewFakeClock t0 in
  let busy := (After d0 fresh).2 in
  (watched (heap fresh) (waiters fresh) = 0 ∧
   WaitAdvance_pass 0 fresh = false ∧
   WaitAdvance 0 d (replicate k []) fresh
     = (Polling, fresh, misses (replicate k fresh)) ∧
   advances (misses (replicate k fresh)) = []) ∧
  (watched (heap busy) (waiters busy) = 1 ∧
   WaitAdvance_pass 0 busy = false ∧
   WaitAdvance 0 d (replicate k []) busy
     = (Polling, busy, misses (replicate k busy)) ∧
   advances (misses (replicate k busy)) = []) ∧
  (numWaiters < 0 →
   numWaiters <= watched (heap busy) (waiters busy) ∧
   WaitAdvance numWaiters d (replicate k []) busy
     = (Polling, busy, misses (replicate k busy))).
Proof.
  cbv zeta. split; [|split].
  - split; [done|]. split; [done|].
    split; [by apply WaitAdvance_alone_misses|apply advances_misses].
  - split; [done|]. split; [done|].
    split; [by apply WaitAdvance_alone_misses|apply advances_misses].
  - intros Hn. split; [simpl; lia|].
    apply WaitAdvance_alone_misses.
    destruct (WaitAdvance_pass numWaiters _) eqn:Hpass; [|done].
    apply WaitAdvance_scan_reached in Hpass. lia.
Qed.

(** A threshold of minus one, three passes. *)
Lemma C7_WaitAdvance_misses_the_threshold_zero_witness :
  WaitAdvance (-1) minute (replicate 3 []) (After minute (NewFakeClock 0)).2
  = (Polling, (After minute (NewFakeClock 0)).2,
     misses (replicate 3 (After minute (NewFakeClock 0)).2)).
Proof.
  destruct (C7_WaitAdvance_misses_the_threshold_zero 0 minute minute 3 (-1))
    as (_ & _ & Hneg).
  destruct Hneg as [_ Hrun]; [reflexivity|exact Hrun].
Defined.

(** C10: the comparison with [numWaiters] sits inside the loop over the
    waiters.  On a clock whose waiter list is empty, and stays so because no
    other goroutine registers a waiter, a call of [WaitAdvance] (with
    [numWaiters = 0] as with any other value) is still polling after any
    number of passes and has invoked no [Advance]: every pass misses.  In
    general a pass hits exactly when the running count of watched waiters is
    equal to [numWaiters] right after one of the listed waiters. *)
Theorem C10_WaitAdvance_compares_inside_the_loop
    (numWaiters : Z) (d : Duration) (sched : list (list action)) (fc : FakeClock) :
  waiters fc = [] →
  Forall (λ others, Forall (λ a, registers a = false) others) sched →
  (let '(s, fc', tr) := WaitAdvance numWaiters d sched fc in
   s = Polling ∧ advances tr = [] ∧ length tr = (2 * length sched)%nat ∧
   (∀ fck hit, EvScan fck hit ∈ tr → hit = false) ∧
   waiters fc' = []) ∧
  WaitAdvance_pass 0 fc = false ∧
  (∀ n fck,
     WaitAdvance_pass n fck = true ↔
     ∃ k, (0 < k ≤ length (waiters fck))%nat ∧
          watched (heap fck) (take k (waiters fck)) = n).
Proof.
  intros Hws Hsched. split; [|split].
  - revert fc Hws. induction Hsched as [|others rest Hothers _ IH]; intros fc Hws.
    { simpl. repeat split; try done. intros fck hit Hin. by apply elem_of_nil in Hin. }
    simpl. unfold WaitAdvance_pass at 1. rewrite Hws. simpl.
    specialize (IH (run others fc) (run_keeps_empty _ _ Hws Hothers)).
    destruct (WaitAdvance numWaiters d rest (run others fc)) as [[s fc'] tr].
    destruct IH as (-> & Hadv & Hlen & Hmiss & Hws').
    repeat split; try done.
    + simpl. lia.
    + intros fck hit Hin. apply elem_of_cons in Hin as [[= _ ->]|Hin]; [done|].
      apply elem_of_cons in Hin as [?|Hin]; [done|]. by eapply Hmiss.
  - unfold WaitAdvance_pass. by rewrite Hws.
  - intros n fck. unfold WaitAdvance_pass. rewrite WaitAdvance_scan_true.
    by setoid_rewrite Z.add_0_l.
Qed.

(** Three passes of [WaitAdvance 0] on a new clock. *)
Lemma C10_WaitAdvance_compares_inside_the_loop_witness :
  let '(s, fc', tr) :=
    WaitAdvance 0 minute [[]; [ActAdvance second]; []] (NewFakeClock 0) in
  s = Polling ∧ advances tr = [] ∧ length tr = 6%nat.
Proof.
  pose proof (C10_WaitAdvance_compares_inside_the_loop 0 minute
    [[]; [ActAdvance second]; []] (NewFakeClock 0)) as H.
  destruct H as [Hpoll _].
  - reflexivity.
  - repeat constructor.
  - destruct (WaitAdvance 0 minute _ _) as [[s fc'] tr].
    destruct Hpoll as (Hs & Hadv & Hlen & _). auto.
Defined.

(** * Further properties of the fake clock *)

(** ** Helpers on lists and states *)

Lemma FakeClock_eq fc1 fc2 :
  heap fc1 = heap fc2 → waiters fc1 = waiters fc2 → curTime fc1 = curTime fc2 →
  fc1 = fc2.
Proof. destruct fc1, fc2. simpl. by intros -> -> ->. Qed.

Lemma filter_ext_in {A} (P Q : A → Prop)
    `{!∀ x, Decision (P x), !∀ x, Decision (Q x)} (l : list A) :
  (∀ x, x ∈ l → P x ↔ Q x) → filter P l = filter Q l.
Proof.
  induction l as [|x l IH]; intros Hiff; [done|].
  rewrite !filter_cons, IH.
  - destruct (decide (P x)) as [HP|HP], (decide (Q x)) as [HQ|HQ]; try done.
    + destruct HQ. apply Hiff; [apply list_elem_of_here|done].
    + destruct HP. apply Hiff; [apply list_elem_of_here|done].
  - intros y Hy. apply Hiff. by apply list_elem_of_further.
Qed.

Lemma filter_all {A} (P : A → Prop) `{!∀ x, Decision (P x)} (l : list A) :
  (∀ x, x ∈ l → P x) → filter P l = l.
Proof.
  induction l as [|x l IH]; intros HP; [done|].
  rewrite filter_cons_True by (apply HP, list_elem_of_here).
  f_equal. apply IH. intros y Hy. by apply HP, list_elem_of_further.
Qed.

Lemma watched_app h ws1 ws2 : watched h (ws1 ++ ws2) = watched h ws1 + watched h ws2.
Proof. induction ws1 as [|p ws1 IH]; simpl; [done|]. rewrite IH. lia. Qed.

Lemma watched_ext h h' ws :
  (∀ p, p ∈ ws → is_watched h p = is_watched h' p) → watched h ws = watched h' ws.
Proof.
  induction ws as [|p ws IH]; intros Hext; simpl; [done|].
  rewrite (Hext p) by apply list_elem_of_here.
  rewrite IH; [done|]. intros q Hq. by apply Hext, list_elem_of_further.
Qed.

(** ** Registration and the watched count *)

(** [After d] and [NewTimer d] allocate a waiter that did not exist and was
    not listed, with [d] remaining and an empty channel of capacity one, put
    it at the end of the list and leave every other waiter as it is.  The
    waiter of [After] counts as watched at once, so the number of watched
    listed waiters grows by one; the waiter of [NewTimer] does not, and the
    number stays. *)
Theorem After_is_watched_NewTimer_is_not (fc : FakeClock) (d : Duration) :
  reachable fc →
  let '(c, fc1) := After d fc in
  let '(timer, fc2) := NewTimer d fc in
  let p := ft_waiter timer in
  (heap fc !! c = None ∧ (c ∉ waiters fc) ∧
   heap fc1 !! c = Some (mkWaiter d (mkChan 1 []) true) ∧
   waiters fc1 = waiters fc ++ [c] ∧
   (∀ q, q ≠ c → heap fc1 !! q = heap fc !! q) ∧
   watched (heap fc1) (waiters fc1) = watched (heap fc) (waiters fc) + 1) ∧
  (heap fc !! p = None ∧ (p ∉ waiters fc) ∧
   heap fc2 !! p = Some (mkWaiter d (mkChan 1 []) false) ∧
   waiters fc2 = waiters fc ++ [p] ∧
   (∀ q, q ≠ p → heap fc2 !! q = heap fc !! q) ∧
   watched (heap fc2) (waiters fc2) = watched (heap fc) (waiters fc)).
Proof.
  intros Hreach. pose proof (reachable_wf fc Hreach) as Hwf. simpl.
  assert (Hreg : ∀ b,
    heap fc !! length (heap fc) = None ∧ (length (heap fc) ∉ waiters fc) ∧
    (heap fc ++ [makeWaiter d b]) !! length (heap fc)
      = Some (mkWaiter d (mkChan 1 []) b) ∧
    (∀ q, q ≠ length (heap fc) →
       (heap fc ++ [makeWaiter d b]) !! q = heap fc !! q) ∧
    watched (heap fc ++ [makeWaiter d b]) (waiters fc ++ [length (heap fc)])
      = watched (heap fc) (waiters fc) + (if b then 1 else 0)).
  { intros b. split; [by apply lookup_ge_None_2|]. split.
    { intros Hin. apply (wf_valid _ Hwf) in Hin. lia. }
    split; [apply (register_new d b fc)|]. split.
    - intros q Hq. destruct (decide (q < length (heap fc))%nat).
      + by apply lookup_app_l.
      + rewrite !lookup_ge_None_2; [done|lia|rewrite length_app; simpl; lia].
    - rewrite watched_app. simpl. f_equal.
      + apply watched_ext. intros q Hq. unfold is_watched.
        rewrite lookup_app_l; [done|]. by apply (wf_valid _ Hwf).
      + unfold is_watched. rewrite lookup_app_r by lia.
        rewrite Nat.sub_diag. simpl. destruct b; lia. }
  split.
  - destruct (Hreg true) as (H1 & H2 & H3 & H4 & H5). by repeat split.
  - destruct (Hreg false) as (H1 & H2 & H3 & H4 & H5).
    rewrite Z.add_0_r in H5. by repeat split.
Qed.

(** After one timeout and one timer, one waiter is watched. *)
Lemma After_is_watched_NewTimer_is_not_witness :
  let fc := run [ActAfter minute] (NewFakeClock 0) in
  reachable fc ∧
  watched (heap (After second fc).2) (waiters (After second fc).2) = 2 ∧
  watched (heap (NewTimer second fc).2) (waiters (NewTimer second fc).2) = 1.
Proof.
  assert (Hreach : reachable (run [ActAfter minute] (NewFakeClock 0))).
  { exists 0, [ActAfter minute]. split; [|reflexivity].
    repeat constructor; vm_compute; discriminate. }
  split; [exact Hreach|].
  pose proof (After_is_watched_NewTimer_is_not _ second Hreach) as H.
  simpl in H. destruct H as [(_ & _ & _ & _ & _ & HA) (_ & _ & _ & _ & _ & HT)].
  split; [exact HA|exact HT].
Defined.

Lemma watched_alter_C h ws p w :
  NoDup ws → h !! p = Some w →
  watched (alter (set_consumerWaiting true) p h) ws
    = watched h ws +
      (if decide (p ∈ ws) then if consumerWaiting w then 0 else 1 else 0).
Proof.
  intros Hnd Hw. induction ws as [|q ws IH].
  { destruct (decide (p ∈ [])) as [Hin|_]; [by apply elem_of_nil in Hin|done]. }
  apply NoDup_cons in Hnd as [Hq Hnd]. specialize (IH Hnd).
  cbn [watched]. rewrite IH. clear IH.
  destruct (decide (q = p)) as [->|Hne].
  - destruct (decide (p ∈ ws)) as [?|_]; [done|].
    destruct (decide (p ∈ p :: ws)) as [_|Hout];
      [|destruct Hout; apply list_elem_of_here].
    unfold is_watched. rewrite list_lookup_alter_eq, Hw. simpl.
    destruct (consumerWaiting w); lia.
  - unfold is_watched at 1. rewrite list_lookup_alter_ne by done.
    fold (is_watched h q).
    destruct (decide (p ∈ ws)) as [Hin|Hout], (decide (p ∈ q :: ws)) as [Hin'|Hout'];
      try lia.
    + destruct Hout'. by apply list_elem_of_further.
    + apply elem_of_cons in Hin' as [?|?]; done.
Qed.

(** [C] returns the channel of the handle's waiter and sets its
    [consumerWaiting] flag, nothing else: list, current time, remaining
    durations and channel contents stay.  On a listed timer the number of
    watched listed waiters grows by one the first time and not at all
    afterwards; calling [C] twice is the same as calling it once. *)
Theorem C_marks_watched_once (fc : FakeClock) (ft : fakeClockTimer) :
  reachable fc → ft_waiter ft ∈ waiters fc →
  let '(ch, fc1) := C ft fc in
  ch = ft_waiter ft ∧
  is_watched (heap fc1) ch = true ∧
  waiters fc1 = waiters fc ∧ Now fc1 = Now fc ∧
  (∀ q, remaining fc1 q = remaining fc q ∧ slot fc1 q = slot fc q) ∧
  watched (heap fc1) (waiters fc1)
    = watched (heap fc) (waiters fc) + (if is_watched (heap fc) ch then 0 else 1) ∧
  C ft fc1 = (ch, fc1).
Proof.
  intros Hreach Hin. pose proof (reachable_wf fc Hreach) as Hwf. simpl.
  assert (is_Some (heap fc !! ft_waiter ft)) as [w Hw].
  { apply lookup_lt_is_Some. by apply (wf_valid _ Hwf). }
  split; [done|]. split.
  { unfold is_watched. by rewrite list_lookup_alter_eq, Hw. }
  split; [done|]. split; [done|]. split; [|split].
  - intros q. split.
    + unfold remaining. simpl. rewrite list_lookup_alter.
      case_decide as Heq; [|done]. subst q. by destruct (heap fc !! ft_waiter ft).
    + by rewrite slot_alter.
  - rewrite (watched_alter_C _ _ _ w) by (done || apply Hwf).
    rewrite decide_True by done. unfold is_watched. by rewrite Hw.
  - unfold C. simpl. do 2 f_equal. rewrite list_alter_alter_eq.
    by apply list_alter_ext.
Qed.

(** The steps of [TestWaitAdvance]: fetching the timer's channel brings the
    count from one to two, once. *)
Lemma C_marks_watched_once_witness :
  let fc := run [ActAfter minute; ActNewTimer minute] (NewFakeClock 0) in
  let fc1 := (C (mkTimer 1) fc).2 in
  watched (heap fc1) (waiters fc1) = 2 ∧ C (mkTimer 1) fc1 = (1%nat, fc1).
Proof.
  assert (Hreach : reachable (run [ActAfter minute; ActNewTimer minute] (NewFakeClock 0))).
  { exists 0, [ActAfter minute; ActNewTimer minute]. split; [|reflexivity].
    repeat constructor; vm_compute; discriminate. }
  pose proof (C_marks_watched_once _ (mkTimer 1) Hreach) as H.
  simpl in H. destruct H as (_ & _ & _ & _ & _ & Hcount & Hidem).
  { apply list_elem_of_further, list_elem_of_here. }
  split; [exact Hcount|exact Hidem].
Defined.

(** ** [Stop] and [Reset] *)

(** [Stop] on a handle whose waiter is not listed (it has fired, or was
    stopped before) leaves the clock as it is.  A second [Stop] therefore
    gives the answer of the first and the state of the first. *)
Theorem Stop_is_idempotent (fc : FakeClock) (ft : fakeClockTimer) :
  (ft_waiter ft ∉ waiters fc → (Stop ft fc).2 = fc) ∧
  Stop ft (Stop ft fc).2 = Stop ft fc.
Proof.
  assert (Hnoop : ∀ st, ft_waiter ft ∉ waiters st → (Stop ft st).2 = st).
  { intros st Hout. apply FakeClock_eq; simpl; try done.
    apply filter_all. intros q Hq ->. done. }
  split; [apply Hnoop|].
  assert (Hout : ft_waiter ft ∉ waiters (Stop ft fc).2).
  { simpl. intros Hin. apply list_elem_of_filter in Hin as [Hne _]. done. }
  pose proof (Hnoop _ Hout) as Hstate.
  rewrite (surjective_pairing (Stop ft (Stop ft fc).2)), Hstate.
  rewrite (surjective_pairing (Stop ft fc)) at 3. done.
Qed.

(** A timer that has fired is not listed: [Stop] changes nothing. *)
Lemma Stop_is_idempotent_witness :
  let fc := Advance minute (NewTimer minute (NewFakeClock 0)).2 in
  (Stop (mkTimer 0) fc).2 = fc.
Proof.
  apply (Stop_is_idempotent (Advance minute (NewTimer minute (NewFakeClock 0)).2)
           (mkTimer 0)).
  vm_compute. apply not_elem_of_nil.
Defined.

(** [Stop] reads the stored duration, not the channel.  After [Reset d] on
    any allocated waiter it returns [true] exactly when [d] is 0, and so it
    does right after [NewTimer d]; while the waiter is listed its channel is
    empty, so the answer [true] for [d = 0] comes with no notification sent. *)
Theorem Stop_reports_a_zero_duration (fc : FakeClock) (ft : fakeClockTimer) (d : Duration) :
  reachable fc → is_Some (heap fc !! ft_waiter ft) →
  (Stop ft (Reset ft d fc)).1 = (d =? 0) ∧
  (ft_waiter ft ∈ waiters fc → slot (Reset ft d fc) (ft_waiter ft) = []) ∧
  (let '(timer, fc1) := NewTimer d fc in
   (Stop timer fc1).1 = (d =? 0) ∧ slot fc1 (ft_waiter timer) = []).
Proof.
  intros Hreach [w Hw]. pose proof (reachable_wf fc Hreach) as Hwf.
  split; [|split].
  - simpl. by rewrite list_lookup_alter_eq, Hw.
  - intros Hin. unfold Reset. rewrite slot_alter by done.
    rewrite (slot_lookup _ _ _ Hw). by eapply wf_idle.
  - simpl. destruct (register_new d false fc) as [Hnew _]. simpl in Hnew.
    rewrite Hnew. split; [done|]. unfold slot. simpl. by rewrite Hnew.
Qed.

(** A listed ten-minute timer reset to zero: [Stop] says [true], and the
    channel is empty. *)
Lemma Stop_reports_a_zero_duration_witness :
  let fc := run [ActNewTimer (10 * minute)] (NewFakeClock 0) in
  (Stop (mkTimer 0) (Reset (mkTimer 0) 0 fc)).1 = true ∧
  slot (Reset (mkTimer 0) 0 fc) 0%nat = [].
Proof.
  assert (Hreach : reachable (run [ActNewTimer (10 * minute)] (NewFakeClock 0))).
  { exists 0, [ActNewTimer (10 * minute)]. split; [|reflexivity].
    repeat constructor; vm_compute; discriminate. }
  destruct (Stop_reports_a_zero_duration _ (mkTimer 0) 0 Hreach) as (Hstop & Hslot & _).
  { eexists. reflexivity. }
  split; [exact Hstop|]. apply Hslot. apply list_elem_of_here.
Defined.

(** [Reset d] on a timer that is still listed re-arms it like a new timer of
    duration [d]: it writes the remaining duration and nothing else, the next
    [Advance d'] fires the timer when [d <= d'], and counts it down to
    [d - d'] when [0 <= d' < d]. *)
Theorem Reset_rearms_a_listed_timer
    (fc : FakeClock) (ft : fakeClockTimer) (d d' : Duration) :
  reachable fc → ft_waiter ft ∈ waiters fc → int64 d →
  let p := ft_waiter ft in
  let fc1 := Reset ft d fc in
  waiters fc1 = waiters fc ∧ Now fc1 = Now fc ∧
  remaining fc1 p = Some d ∧ slot fc1 p = [] ∧
  (∀ q, q ≠ p → heap fc1 !! q = heap fc !! q) ∧
  (d <= d' →
     slot (Advance d' fc1) p = [Now fc] ∧ remaining (Advance d' fc1) p = Some 0 ∧
     p ∉ waiters (Advance d' fc1)) ∧
  (0 <= d' < d →
     slot (Advance d' fc1) p = [] ∧ remaining (Advance d' fc1) p = Some (d - d') ∧
     p ∈ waiters (Advance d' fc1)).
Proof.
  intros Hreach Hin Hd. pose proof (reachable_wf fc Hreach) as Hwf.
  pose proof (wf_Reset ft d fc Hwf) as Hwf1. simpl.
  assert (is_Some (heap fc !! ft_waiter ft)) as [w Hw].
  { apply lookup_lt_is_Some. by apply (wf_valid _ Hwf). }
  assert (Hw1 : heap (Reset ft d fc) !! ft_waiter ft = Some (set_timeout d w)).
  { simpl. by rewrite list_lookup_alter_eq, Hw. }
  assert (Hidle : buf (notifyCh w) = []) by exact (wf_idle _ Hwf _ _ Hin Hw).
  split; [done|]. split; [done|].
  split; [by rewrite (remaining_lookup _ _ _ Hw1)|].
  split; [by rewrite (slot_lookup _ _ _ Hw1)|].
  split; [intros q Hq; simpl; by rewrite list_lookup_alter_ne|].
  split.
  - intros Hle.
    destruct (Advance_fires d' _ _ _ (wf_nodup _ Hwf1) Hin Hw1) as [Hheap Hout];
      [done|].
    rewrite (slot_lookup _ _ _ Hheap), (remaining_lookup _ _ _ Hheap). simpl.
    split; [|done]. apply try_send_empty; [exact (wf_cap _ Hwf _ _ Hw)|done].
  - intros Hlt.
    destruct (Advance_keeps d' _ _ _ (wf_nodup _ Hwf1) Hin Hw1) as [Hheap Hkept];
      [simpl; lia|].
    rewrite (slot_lookup _ _ _ Hheap), (remaining_lookup _ _ _ Hheap). simpl.
    split; [done|]. split; [|done]. by rewrite sub64_nonneg.
Qed.

(** A listed ten-minute timer reset to five minutes fires after five. *)
Lemma Reset_rearms_a_listed_timer_witness :
  let fc := run [ActNewTimer (10 * minute)] (NewFakeClock 0) in
  slot (Advance (5 * minute) (Reset (mkTimer 0) (5 * minute) fc)) 0%nat = [0] ∧
  remaining (Advance minute (Reset (mkTimer 0) (5 * minute) fc)) 0%nat
    = Some (5 * minute - minute).
Proof.
  assert (Hreach : reachable (run [ActNewTimer (10 * minute)] (NewFakeClock 0))).
  { exists 0, [ActNewTimer (10 * minute)]. split; [|reflexivity].
    repeat constructor; vm_compute; discriminate. }
  split.
  - destruct (Reset_rearms_a_listed_timer _ (mkTimer 0) (5 * minute) (5 * minute) Hreach)
      as (_ & _ & _ & _ & _ & Hfire & _).
    + apply list_elem_of_here.
    + vm_compute. split; discriminate.
    + destruct Hfire as [Hslot _]; [lia|exact Hslot].
  - destruct (Reset_rearms_a_listed_timer _ (mkTimer 0) (5 * minute) minute Hreach)
      as (_ & _ & _ & _ & _ & _ & Hkeep).
    + apply list_elem_of_here.
    + vm_compute. split; discriminate.
    + destruct Hkeep as (_ & Hrem & _); [vm_compute; split; [discriminate|reflexivity]|].
      exact Hrem.
Defined.

(** ** More on [Advance] *)

(** What [TestAdvanceTriggersTimeout] checks, for any reachable state: an
    [Advance d] with [d] at least the remaining duration of every listed
    waiter leaves the list empty, and the channel of every waiter that was
    listed holds the current time as its one value. *)
Theorem Advance_past_every_waiter_empties_the_list (fc : FakeClock) (d : Duration) :
  reachable fc →
  (∀ p r, p ∈ waiters fc → remaining fc p = Some r → r <= d) →
  waiters (Advance d fc) = [] ∧
  ∀ p, p ∈ waiters fc →
       slot (Advance d fc) p = [Now fc] ∧ remaining (Advance d fc) p = Some 0.
Proof.
  intros Hreach Hall. pose proof (reachable_wf fc Hreach) as Hwf.
  assert (Hfire : ∀ p, p ∈ waiters fc →
            (slot (Advance d fc) p = [Now fc] ∧
             remaining (Advance d fc) p = Some 0) ∧ p ∉ waiters (Advance d fc)).
  { intros p Hin.
    assert (is_Some (heap fc !! p)) as [w Hw].
    { apply lookup_lt_is_Some. by apply (wf_valid _ Hwf). }
    destruct (Advance_fires d fc p w (wf_nodup _ Hwf) Hin Hw) as [Hheap Hout].
    { apply (Hall p); [done|]. by apply remaining_lookup. }
    rewrite (slot_lookup _ _ _ Hheap), (remaining_lookup _ _ _ Hheap). simpl.
    split; [|done]. split; [|done].
    apply try_send_empty; [by eapply wf_cap|by eapply wf_idle]. }
  split; [|intros p Hin; by destruct (Hfire p Hin)].
  destruct (waiters (Advance d fc)) as [|p ws] eqn:Hws; [done|].
  assert (Hin : p ∈ waiters (Advance d fc)) by (rewrite Hws; apply list_elem_of_here).
  pose proof (Advance_waiters_subset _ _ _ Hin) as Hin0.
  destruct (Hfire p Hin0) as [_ Hout]. destruct Hout. apply list_elem_of_here.
Qed.

(** Timeouts of ten and eleven minutes, advanced by eleven. *)
Lemma Advance_past_every_waiter_empties_the_list_witness :
  let fc := run [ActAfter (10 * minute); ActAfter (11 * minute)] (NewFakeClock 0) in
  waiters (Advance (11 * minute) fc) = [] ∧ slot (Advance (11 * minute) fc) 1%nat = [0].
Proof.
  assert (Hreach : reachable
            (run [ActAfter (10 * minute); ActAfter (11 * minute)] (NewFakeClock 0))).
  { exists 0, [ActAfter (10 * minute); ActAfter (11 * minute)]. split; [|reflexivity].
    repeat constructor; vm_compute; discriminate. }
  destruct (Advance_past_every_waiter_empties_the_list _ (11 * minute) Hreach)
    as [Hempty Hslots].
  - intros p r Hin. apply elem_of_cons in Hin as [->|Hin].
    + intros [= <-]. vm_compute. discriminate.
    + apply list_elem_of_singleton in Hin as ->.
      intros [= <-]. vm_compute. discriminate.
  - split; [exact Hempty|].
    apply Hslots. apply list_elem_of_further, list_elem_of_here.
Defined.

(** After [Advance d] with [d >= 0], every waiter still listed has a
    strictly positive remaining duration, which is what it had before
    minus [d]; its channel is empty. *)
Theorem Advance_leaves_positive_durations (fc : FakeClock) (d : Duration) (p : ptr) :
  reachable fc → 0 <= d → p ∈ waiters (Advance d fc) →
  ∃ r, remaining fc p = Some r ∧ d < r ∧
       remaining (Advance d fc) p = Some (r - d) ∧
       slot (Advance d fc) p = [].
Proof.
  intros Hreach Hd Hin. pose proof (reachable_wf fc Hreach) as Hwf.
  pose proof (reachable_timeouts_int64 fc Hreach) as Hint.
  rewrite Advance_waiters in Hin by apply Hwf.
  apply list_elem_of_filter in Hin as [Harmed Hin].
  apply armed_true in Harmed as (w & Hw & Hlt).
  destruct (Advance_keeps d fc p w (wf_nodup _ Hwf) Hin Hw Hlt) as [Hheap _].
  exists (timeout w). split; [by apply remaining_lookup|]. split; [done|].
  rewrite (slot_lookup _ _ _ Hheap), (remaining_lookup _ _ _ Hheap). simpl.
  split; [|by eapply wf_idle].
  rewrite sub64_nonneg; [done|by eapply Hint|lia].
Qed.

(** A ten-minute timeout, one minute later. *)
Lemma Advance_leaves_positive_durations_witness :
  let fc := run [ActAfter (10 * minute)] (NewFakeClock 0) in
  ∃ r, remaining fc 0%nat = Some r ∧ minute < r ∧
       remaining (Advance minute fc) 0%nat = Some (r - minute) ∧
       slot (Advance minute fc) 0%nat = [].
Proof.
  assert (Hreach : reachable (run [ActAfter (10 * minute)] (NewFakeClock 0))).
  { exists 0, [ActAfter (10 * minute)]. split; [|reflexivity].
    repeat constructor; vm_compute; discriminate. }
  apply (Advance_leaves_positive_durations _ minute 0%nat Hreach).
  - vm_compute. discriminate.
  - vm_compute. apply list_elem_of_here.
Defined.

(** Two advances by non-negative durations amount to one advance by their
    sum: the same waiters fire, with the same notification (the current time
    does not move), the others are left with the same remaining duration, and
    the list is the same. *)
Theorem Advance_twice_is_Advance_of_the_sum (fc : FakeClock) (d1 d2 : Duration) :
  reachable fc → 0 <= d1 → 0 <= d2 →
  Advance d2 (Advance d1 fc) = Advance (d1 + d2) fc.
Proof.
  intros Hreach Hd1 Hd2. pose proof (reachable_wf fc Hreach) as Hwf.
  pose proof (reachable_timeouts_int64 fc Hreach) as Hint.
  pose proof (wf_Advance d1 fc Hwf) as Hwf1.
  pose proof (wf_nodup _ Hwf) as Hnd. pose proof (wf_nodup _ Hwf1) as Hnd1.
  assert (Hkeep1 : ∀ p w, p ∈ waiters fc → heap fc !! p = Some w → d1 < timeout w →
            heap (Advance d1 fc) !! p
              = Some (mkWaiter (timeout w - d1) (notifyCh w) (consumerWaiting w)) ∧
            p ∈ waiters (Advance d1 fc)).
  { intros p w Hin Hw Hlt.
    destruct (Advance_keeps d1 fc p w Hnd Hin Hw Hlt) as [Hheap Hkept].
    rewrite sub64_nonneg in Hheap; [done|by eapply Hint|lia]. }
  apply FakeClock_eq.
  - apply list_eq. intros p.
    destruct (decide (p ∈ waiters fc)) as [Hin|Hout].
    + assert (is_Some (heap fc !! p)) as [w Hw].
      { apply lookup_lt_is_Some. by apply (wf_valid _ Hwf). }
      pose proof (Hint p w Hw) as Hw64.
      destruct (decide (timeout w <= d1)) as [Hle|Hgt].
      * destruct (Advance_fires d1 fc p w Hnd Hin Hw Hle) as [H1 Hout1].
        destruct (Advance_fires (d1 + d2) fc p w Hnd Hin Hw) as [H12 _]; [lia|].
        by rewrite (Advance_heap_other d2 _ p Hout1), H1, H12.
      * destruct (Hkeep1 p w Hin Hw) as [H1 Hin1]; [lia|].
        destruct (decide (timeout w - d1 <= d2)) as [Hle2|Hgt2].
        -- destruct (Advance_fires d2 _ p _ Hnd1 Hin1 H1) as [H2 _]; [done|].
           destruct (Advance_fires (d1 + d2) fc p w Hnd Hin Hw) as [H12 _]; [lia|].
           rewrite H2, H12, Advance_curTime. done.
        -- destruct (Advance_keeps d2 _ p _ Hnd1 Hin1 H1) as [H2 _]; [simpl; lia|].
           destruct (Advance_keeps (d1 + d2) fc p w Hnd Hin Hw) as [H12 _]; [lia|].
           rewrite H2, H12. simpl. do 2 f_equal.
           rewrite !sub64_nonneg; [lia|done|lia| |lia].
           unfold int64, min_int64, max_int64 in *. lia.
    + assert (Hout1 : p ∉ waiters (Advance d1 fc)).
      { intros Hin1. by apply Advance_waiters_subset in Hin1. }
      by rewrite !Advance_heap_other.
  - rewrite !Advance_waiters by done. rewrite list_filter_filter.
    apply filter_ext_in. intros p Hin.
    assert (is_Some (heap fc !! p)) as [w Hw].
    { apply lookup_lt_is_Some. by apply (wf_valid _ Hwf). }
    rewrite !armed_true. split.
    + intros [(w1 & Hw1 & Hlt2) (w0 & Hw0 & Hlt1)].
      rewrite Hw in Hw0. injection Hw0 as <-.
      destruct (Hkeep1 p w Hin Hw Hlt1) as [H1 _]. rewrite H1 in Hw1.
      injection Hw1 as <-. simpl in Hlt2. exists w. split; [done|lia].
    + intros (w0 & Hw0 & Hlt). rewrite Hw in Hw0. injection Hw0 as <-.
      destruct (Hkeep1 p w Hin Hw) as [H1 _]; [lia|].
      split; [|exists w; split; [done|lia]].
      eexists. split; [exact H1|]. simpl. lia.
  - by rewrite !Advance_curTime.
Qed.

(** Ten minutes in two steps, over a timeout that fires at the first step,
    one that fires at the second and one that stays. *)
Lemma Advance_twice_is_Advance_of_the_sum_witness :
  let fc := run [ActAfter (3 * minute); ActNewTimer (8 * minute); ActAfter (20 * minute)]
                (NewFakeClock 0) in
  Advance (6 * minute) (Advance (4 * minute) fc) = Advance (4 * minute + 6 * minute) fc.
Proof.
  apply Advance_twice_is_Advance_of_the_sum.
  - exists 0, [ActAfter (3 * minute); ActNewTimer (8 * minute); ActAfter (20 * minute)].
    split; [|reflexivity]. repeat constructor; vm_compute; discriminate.
  - vm_compute. discriminate.
  - vm_compute. discriminate.
Defined.

(** ** Invariants of every run *)

Lemma step_notifications t0 fc a :
  wf fc → curTime fc = t0 →
  (∀ p, slot fc p = [] ∨ slot fc p = [t0]) →
  ∀ p, slot (step fc a) p = [] ∨ slot (step fc a) p = [t0].
Proof.
  intros Hwf Ht0 Hinv p. specialize (Hinv p).
  destruct a as [d|d|d|ft|ft d|ft|q]; simpl.
  - unfold slot in *. simpl.
    destruct ((heap fc ++ [makeWaiter d true]) !! p) as [w'|] eqn:Hp; [|by left].
    apply lookup_app_Some in Hp as [Hp|[_ Hp]]; [by rewrite Hp in Hinv|].
    apply list_lookup_singleton_Some in Hp as [_ <-]. by left.
  - unfold slot in *. simpl.
    destruct ((heap fc ++ [makeWaiter d false]) !! p) as [w'|] eqn:Hp; [|by left].
    apply lookup_app_Some in Hp as [Hp|[_ Hp]]; [by rewrite Hp in Hinv|].
    apply list_lookup_singleton_Some in Hp as [_ <-]. by left.
  - unfold slot in *.
    destruct (heap (Advance d fc) !! p) as [w'|] eqn:Hp; [|by left].
    apply Advance_heap_inv in Hp as (w & Hw & [[_ ->]|[_ ->]]); [| |apply Hwf];
      rewrite Hw in Hinv; [done|].
    unfold Advance_waiter. destruct (timeout w <=? d); simpl; [|done].
    right. rewrite Ht0. destruct Hinv as [Hbuf|Hbuf].
    + apply try_send_empty; [by eapply wf_cap|done].
    + rewrite try_send_full; [done|]. rewrite (wf_cap _ Hwf p w Hw), Hbuf. done.
  - by rewrite slot_alter.
  - unfold Reset. by rewrite slot_alter.
  - done.
  - unfold Recv. destruct (heap fc !! q) as [w|] eqn:Hw; [|done].
    destruct (recv (notifyCh w)) as [v c] eqn:Hrecv. unfold slot in *. simpl.
    destruct (decide (q = p)) as [->|Hne].
    + rewrite list_lookup_insert_eq by by eapply lookup_lt_Some. simpl.
      rewrite Hw in Hinv. unfold recv in Hrecv.
      destruct Hinv as [Hbuf|Hbuf]; rewrite Hbuf in Hrecv; simplify_eq/=; by left.
    + by rewrite list_lookup_insert_ne.
Qed.

(** Every value that sits in a waiter's channel, in any state a clock
    created by [NewFakeClock t0] can reach, is [t0]: a channel is empty or
    holds [t0] alone.  And the channel of a listed waiter is empty: a
    notification is only ever found on a waiter that has left the list. *)
Theorem every_notification_is_the_initial_instant
    (t0 : Time) (acts : list action) (p : ptr) :
  let fc := run acts (NewFakeClock t0) in
  (slot fc p = [] ∨ slot fc p = [t0]) ∧
  (p ∈ waiters fc → slot fc p = []).
Proof.
  simpl. split.
  - assert (Hgen : ∀ fc, wf fc → curTime fc = t0 →
              (∀ q, slot fc q = [] ∨ slot fc q = [t0]) →
              ∀ q, slot (run acts fc) q = [] ∨ slot (run acts fc) q = [t0]).
    { induction acts as [|a acts IH]; intros fc Hwf Ht0 Hinv; simpl; [done|].
      apply IH.
      - by apply wf_step.
      - by rewrite step_curTime.
      - by apply step_notifications. }
    apply Hgen; [apply wf_NewFakeClock|done|]. intros q. by left.
  - intros Hin.
    pose proof (wf_run acts _ (wf_NewFakeClock t0)) as Hwf.
    unfold slot. destruct (heap _ !! p) as [w|] eqn:Hw; [|done].
    by eapply wf_idle.
Qed.

Lemma step_detached_keeps_slot fc a p :
  (p < length (heap fc))%nat → p ∉ waiters fc → a ≠ ActRecv p →
  slot (step fc a) p = slot fc p.
Proof.
  intros Hlt Hout Ha. destruct a as [d|d|d|ft|ft d|ft|q]; simpl.
  - unfold slot. simpl. by rewrite lookup_app_l.
  - unfold slot. simpl. by rewrite lookup_app_l.
  - unfold slot. by rewrite Advance_heap_other.
  - by rewrite slot_alter.
  - unfold Reset. by rewrite slot_alter.
  - done.
  - unfold Recv. destruct (heap fc !! q) as [w|] eqn:Hw; [|done].
    destruct (recv (notifyCh w)) as [v c]. unfold slot. simpl.
    rewrite list_lookup_insert_ne; [done|]. intros ->. done.
Qed.

Lemma run_detached_keeps_slot acts fc p :
  (p < length (heap fc))%nat → p ∉ waiters fc →
  Forall (λ a, a ≠ ActRecv p) acts →
  slot (run acts fc) p = slot fc p.
Proof.
  intros Hlt Hout Hacts. revert fc Hlt Hout.
  induction Hacts as [|a acts Ha _ IH]; intros fc Hlt Hout; simpl; [done|].
  destruct (step_detached fc a p Hlt Hout) as (Hlt' & Hout' & _).
  rewrite IH by done. by apply step_detached_keeps_slot.
Qed.

(** A waiter that [Advance] has fired is never listed again, whatever
    follows: it is sent at most the one notification.  Its channel holds
    that notification until a consumer receives it, and is empty from then
    on. *)
Theorem a_fired_waiter_is_never_fired_again
    (fc : FakeClock) (d : Duration) (p : ptr) (acts : list action) :
  reachable fc → p ∈ waiters fc →
  (∃ r, remaining fc p = Some r ∧ r <= d) →
  let later := run acts (Advance d fc) in
  slot (Advance d fc) p = [Now fc] ∧
  (p ∉ waiters later) ∧
  (slot later p = [Now fc] ∨ slot later p = []) ∧
  (Forall (λ a, a ≠ ActRecv p) acts → slot later p = [Now fc]).
Proof.
  intros Hreach Hin (r & Hr & Hle). pose proof (reachable_wf fc Hreach) as Hwf.
  simpl. unfold remaining in Hr.
  destruct (heap fc !! p) as [w|] eqn:Hw; [|done]. simplify_eq/=.
  destruct (Advance_fires d fc p w (wf_nodup _ Hwf) Hin Hw Hle) as [Hheap Hout].
  assert (Hslot : slot (Advance d fc) p = [Now fc]).
  { rewrite (slot_lookup _ _ _ Hheap). simpl.
    apply try_send_empty; [by eapply wf_cap|by eapply wf_idle]. }
  assert (Hlt : (p < length (heap (Advance d fc)))%nat) by by eapply lookup_lt_Some.
  destruct (run_detached acts _ p Hlt Hout) as (_ & Hout' & Hsuf).
  split; [done|]. split; [done|]. split.
  - rewrite Hslot in Hsuf. destruct Hsuf as [k Hk].
    destruct (slot (run acts (Advance d fc)) p) as [|x l]; [by right|left].
    destruct k as [|y k]; simpl in Hk; [done|].
    injection Hk as _ Hk. by destruct k.
  - intros Hacts. rewrite <- Hslot. by apply run_detached_keeps_slot.
Qed.

(** A timeout fired, other things happening, then received. *)
Lemma a_fired_waiter_is_never_fired_again_witness :
  let fc := run [ActAfter minute] (NewFakeClock 0) in
  slot (run [ActAfter second; ActAdvance minute] (Advance minute fc)) 0%nat = [0] ∧
  0%nat ∉ waiters (run [ActRecv 0; ActAdvance minute] (Advance minute fc)).
Proof.
  assert (Hreach : reachable (run [ActAfter minute] (NewFakeClock 0))).
  { exists 0, [ActAfter minute]. split; [|reflexivity].
    repeat constructor; vm_compute; discriminate. }
  assert (Hin : 0%nat ∈ waiters (run [ActAfter minute] (NewFakeClock 0))).
  { apply list_elem_of_here. }
  assert (Hdue : ∃ r, remaining (run [ActAfter minute] (NewFakeClock 0)) 0%nat = Some r
                      ∧ r <= minute).
  { exists minute. split; [reflexivity|]. vm_compute. discriminate. }
  split.
  - destruct (a_fired_waiter_is_never_fired_again _ minute 0%nat
                [ActAfter second; ActAdvance minute] Hreach Hin Hdue)
      as (_ & _ & _ & Hkept).
    apply Hkept. repeat constructor; discriminate.
  - destruct (a_fired_waiter_is_never_fired_again _ minute 0%nat
                [ActRecv 0; ActAdvance minute] Hreach Hin Hdue)
      as (_ & Hout & _).
    exact Hout.
Defined.

Lemma Advance_waiter_consumerWaiting d now w :
  consumerWaiting (Advance_waiter d now w).1 = consumerWaiting w.
Proof. unfold Advance_waiter. by destruct (timeout w <=? d). Qed.

Lemma step_keeps_watched fc a p :
  wf fc → is_watched (heap fc) p = true → is_watched (heap (step fc a)) p = true.
Proof.
  unfold is_watched. intros Hwf Hp.
  destruct (heap fc !! p) as [w|] eqn:Hw; [|done].
  destruct a as [d|d|d|ft|ft d|ft|q]; simpl.
  - by rewrite (lookup_app_l_Some _ _ _ _ Hw).
  - by rewrite (lookup_app_l_Some _ _ _ _ Hw).
  - destruct (decide (p ∈ waiters fc)) as [Hin|Hout].
    + rewrite (Advance_heap_visited d fc p w) by (done || apply Hwf).
      by rewrite Advance_waiter_consumerWaiting.
    + by rewrite Advance_heap_other, Hw.
  - destruct (decide (ft_waiter ft = p)) as [<-|Hne].
    + by rewrite list_lookup_alter_eq, Hw.
    + by rewrite list_lookup_alter_ne, Hw.
  - destruct (decide (ft_waiter ft = p)) as [<-|Hne].
    + by rewrite list_lookup_alter_eq, Hw.
    + by rewrite list_lookup_alter_ne, Hw.
  - by rewrite Hw.
  - unfold Recv. destruct (heap fc !! q) as [wq|] eqn:Hq; [|simpl; by rewrite Hw].
    destruct (recv (notifyCh wq)) as [v c]. simpl.
    destruct (decide (q = p)) as [->|Hne].
    + rewrite list_lookup_insert_eq by by eapply lookup_lt_Some. simpl.
      by simplify_eq.
    + by rewrite list_lookup_insert_ne, Hw.
Qed.

(** No operation clears [consumerWaiting]: a waiter that is watched stays
    watched through every later transition, listed or not. *)
Theorem consumerWaiting_is_never_cleared
    (fc : FakeClock) (acts : list action) (p : ptr) :
  reachable fc → is_watched (heap fc) p = true →
  is_watched (heap (run acts fc)) p = true.
Proof.
  intros Hreach. pose proof (reachable_wf fc Hreach) as Hwf. clear Hreach.
  revert fc Hwf. induction acts as [|a acts IH]; intros fc Hwf Hp; simpl; [done|].
  apply IH; [by apply wf_step|by apply step_keeps_watched].
Qed.

(** A timer whose channel was fetched, then reset, fired and stopped. *)
Lemma consumerWaiting_is_never_cleared_witness :
  let fc := run [ActNewTimer minute; ActC (mkTimer 0)] (NewFakeClock 0) in
  is_watched
    (heap (run [ActReset (mkTimer 0) second; ActAdvance minute; ActStop (mkTimer 0)] fc))
    0%nat = true.
Proof.
  apply consumerWaiting_is_never_cleared.
  - exists 0, [ActNewTimer minute; ActC (mkTimer 0)]. split; [|reflexivity].
    repeat constructor; vm_compute; discriminate.
  - reflexivity.
Defined.

Lemma step_keeps_order fc a :
  waiters fc `sublist_of` seq 0 (length (heap fc)) →
  waiters (step fc a) `sublist_of` seq 0 (length (heap (step fc a))).
Proof.
  intros Hsub.
  assert (Hnd : NoDup (waiters fc)).
  { eapply sublist_NoDup; [apply NoDup_seq|exact Hsub]. }
  assert (Hreg : ∀ w : waiter,
            waiters fc ++ [length (heap fc)]
              `sublist_of` seq 0 (length (heap fc ++ [w]))).
  { intros w. rewrite length_app. simpl. rewrite Nat.add_1_r, seq_S. simpl.
    by apply sublist_app. }
  destruct a as [d|d|d|ft|ft d|ft|q]; simpl.
  - apply Hreg.
  - apply Hreg.
  - rewrite Advance_heap_length, Advance_waiters by done.
    etrans; [apply sublist_filter|done].
  - by rewrite length_alter.
  - by rewrite length_alter.
  - etrans; [apply sublist_filter|done].
  - unfold Recv. destruct (heap fc !! q) as [w|]; [|done].
    destruct (recv (notifyCh w)) as [v c]. simpl. by rewrite length_insert.
Qed.

(** The waiter list of every reachable state lists waiters in the order
    they were registered, each at most once: it is a sub-list of the
    addresses allocated so far, in allocation order.  [Advance] and [Stop]
    only take elements out: what they leave is a sub-list of what they
    found, in the same order. *)
Theorem waiters_stay_in_registration_order
    (t0 : Time) (acts : list action) (d : Duration) (ft : fakeClockTimer) :
  let fc := run acts (NewFakeClock t0) in
  waiters fc `sublist_of` seq 0 (length (heap fc)) ∧
  NoDup (waiters fc) ∧
  waiters (Advance d fc) `sublist_of` waiters fc ∧
  waiters (Stop ft fc).2 `sublist_of` waiters fc.
Proof.
  simpl.
  assert (Hsub : waiters (run acts (NewFakeClock t0))
                   `sublist_of` seq 0 (length (heap (run acts (NewFakeClock t0))))).
  { assert (Hinit : waiters (NewFakeClock t0)
                      `sublist_of` seq 0 (length (heap (NewFakeClock t0)))) by done.
    revert Hinit. generalize (NewFakeClock t0).
    induction acts as [|a acts IH]; intros fc Hfc; simpl; [done|].
    by apply IH, step_keeps_order. }
  assert (Hnd : NoDup (waiters (run acts (NewFakeClock t0)))).
  { eapply sublist_NoDup; [apply NoDup_seq|exact Hsub]. }
  split; [done|]. split; [done|]. split.
  - rewrite Advance_waiters by done. apply sublist_filter.
  - apply sublist_filter.
Qed.

(** ** Thresholds [WaitAdvance] cannot meet *)

(** With a negative [numWaiters] no pass can hit, since the running count
    starts at 0 and only grows: against any schedule the call is still
    polling, has invoked no [Advance], and the state is what the other
    goroutines made of it. *)
Theorem WaitAdvance_below_zero_never_returns
    (numWaiters : Z) (d : Duration) (sched : list (list action)) (fc : FakeClock) :
  numWaiters < 0 →
  WaitAdvance_pass numWaiters fc = false ∧
  let '(s, fc', tr) := WaitAdvance numWaiters d sched fc in
  s = Polling ∧ advances tr = [] ∧ fc' = run (concat sched) fc.
Proof.
  intros Hn.
  assert (Hmiss : ∀ st, WaitAdvance_pass numWaiters st = false).
  { intros st. destruct (WaitAdvance_pass numWaiters st) eqn:Hpass; [|done].
    apply WaitAdvance_scan_reached in Hpass. lia. }
  split; [apply Hmiss|].
  revert fc. induction sched as [|others rest IH]; intros fc; simpl; [done|].
  rewrite Hmiss. specialize (IH (run others fc)).
  destruct (WaitAdvance numWaiters d rest (run others fc)) as [[s fc'] tr].
  destruct IH as (-> & Hadv & ->). rewrite run_app. done.
Qed.

(** Two watched timeouts, a threshold of minus one, three passes. *)
Lemma WaitAdvance_below_zero_never_returns_witness :
  let fc := run [ActAfter minute; ActAfter minute] (NewFakeClock 0) in
  let '(s, fc', tr) := WaitAdvance (-1) minute [[]; [ActAfter second]; []] fc in
  s = Polling ∧ advances tr = [] ∧ fc' = run [ActAfter second] fc.
Proof.
  pose proof (WaitAdvance_below_zero_never_returns (-1) minute
    [[]; [ActAfter second]; []]
    (run [ActAfter minute; ActAfter minute] (NewFakeClock 0))) as H.
  destruct H as [_ H]; [reflexivity|].
  cbv zeta. destruct (WaitAdvance (-1) minute _ _) as [[s fc'] tr].
  exact H.
Defined.

(** With [numWaiters = 0] a pass hits exactly when the list is not empty and
    its first waiter is not watched: the count is compared only after the
    first waiter has been counted, and once it has left 0 it does not come
    back.  So a clock whose first listed waiter is watched (one made by
    [After], say) keeps [WaitAdvance 0] polling. *)
Theorem WaitAdvance_pass_zero_looks_at_the_first_waiter (fc : FakeClock) :
  WaitAdvance_pass 0 fc = true ↔
  ∃ p ws, waiters fc = p :: ws ∧ is_watched (heap fc) p = false.
Proof.
  unfold WaitAdvance_pass. destruct (waiters fc) as [|p ws].
  { simpl. split; [done|]. by intros (? & ? & ? & _). }
  rewrite WaitAdvance_scan_cons. simpl.
  destruct (is_watched (heap fc) p) eqn:Hp; simpl.
  - split.
    + intros Hscan. apply WaitAdvance_scan_reached in Hscan. lia.
    + intros (p' & ws' & [= <- <-] & Hp'). congruence.
  - split; [|done]. intros _. by exists p, ws.
Qed.

(** ** The state [WaitAdvance] returns *)

Lemma run_concat_take_cons j (others : list action) rest fc :
  run (concat (take (S j) (others :: rest))) fc
  = run (concat (take j rest)) (run others fc).
Proof. simpl. apply run_app. Qed.

(** What a call of [WaitAdvance] amounts to, against any schedule.  Let the
    state before pass [j] be the one the other goroutines have produced by
    then.  If the call has returned, there is a first pass [k] that hit, all
    passes before it missed, and the final state is [Advance d] applied once
    to the state the other goroutines left after pass [k] (which need not
    meet the threshold any more).  If the call is still polling, every pass
    missed and the state is the work of the other goroutines alone. *)
Theorem WaitAdvance_advances_the_state_once
    (numWaiters : Z) (d : Duration) (sched : list (list action)) (fc : FakeClock) :
  let before j := run (concat (take j sched)) fc in
  let '(s, fc', tr) := WaitAdvance numWaiters d sched fc in
  match s with
  | Returned =>
      ∃ k others,
        sched !! k = Some others ∧
        (∀ j, (j < k)%nat → WaitAdvance_pass numWaiters (before j) = false) ∧
        WaitAdvance_pass numWaiters (before k) = true ∧
        fc' = Advance d (run others (before k))
  | Polling =>
      (∀ j, (j < length sched)%nat → WaitAdvance_pass numWaiters (before j) = false) ∧
      fc' = run (concat sched) fc
  end.
Proof.
  cbv zeta. revert fc. induction sched as [|others rest IH]; intros fc.
  { simpl. split; [intros j Hj; lia|done]. }
  cbn [WaitAdvance]. destruct (WaitAdvance_pass numWaiters fc) eqn:Hpass.
  - exists 0%nat, others. split; [done|]. split; [intros j Hj; lia|].
    split; [done|done].
  - specialize (IH (run others fc)).
    destruct (WaitAdvance numWaiters d rest (run others fc)) as [[s fc'] tr].
    destruct s.
    + destruct IH as (k & others' & Hk & Hmiss & Hhit & ->).
      exists (S k), others'. split; [done|]. split; [|split].
      * intros [|j] Hj; [done|]. rewrite run_concat_take_cons. apply Hmiss. lia.
      * by rewrite run_concat_take_cons.
      * by rewrite run_concat_take_cons.
    + destruct IH as [Hmiss ->]. split.
      * intros [|j] Hj; [done|]. rewrite run_concat_take_cons. apply Hmiss.
        simpl in Hj. lia.
      * simpl. by rewrite run_app.
Qed.

(** [TestWaitAdvance] again: the hit is at the second pass, and the advance
    fires both waiters. *)
Lemma WaitAdvance_advances_the_state_once_witness :
  let fc := run [ActAfter (10 * minute); ActNewTimer (10 * minute)] (NewFakeClock 0) in
  ∃ k others,
    [[ActC (mkTimer 1)]; []] !! k = Some others ∧
    WaitAdvance_pass 2 (run (concat (take k [[ActC (mkTimer 1)]; []])) fc) = true ∧
    (WaitAdvance 2 (10 * minute) [[ActC (mkTimer 1)]; []] fc).1.2
      = Advance (10 * minute)
          (run others (run (concat (take k [[ActC (mkTimer 1)]; []])) fc)).
Proof.
  pose proof (WaitAdvance_advances_the_state_once 2 (10 * minute)
    [[ActC (mkTimer 1)]; []]
    (run [ActAfter (10 * minute); ActNewTimer (10 * minute)] (NewFakeClock 0))) as H.
  cbv zeta in *.
  destruct (WaitAdvance 2 (10 * minute) [[ActC (mkTimer 1)]; []] _)
    as [[s fc'] tr] eqn:Hrun.
  assert (Hs : s = Returned).
  { vm_compute in Hrun. by injection Hrun as <- _ _. }
  subst s. destruct H as (k & others & Hk & _ & Hhit & Hfc).
  exists k, others. split; [exact Hk|]. split; [exact Hhit|exact Hfc].
Defined.

(** A run with a fired timeout, a listed timer and a received notification. *)
Lemma every_notification_is_the_initial_instant_witness :
  let fc := run [ActAfter minute; ActNewTimer (2 * minute); ActAdvance minute]
                (NewFakeClock 7) in
  (slot fc 0%nat = [] ∨ slot fc 0%nat = [7]) ∧ slot fc 1%nat = [].
Proof.
  split.
  - apply (every_notification_is_the_initial_instant 7
             [ActAfter minute; ActNewTimer (2 * minute); ActAdvance minute] 0%nat).
  - apply (every_notification_is_the_initial_instant 7
             [ActAfter minute; ActNewTimer (2 * minute); ActAdvance minute] 1%nat).
    vm_compute. apply list_elem_of_here.
Defined.
